(** * cdu: Cloudflare dynamic DNS updater

    A shallow embedding of the reconciliation pass of the two versions of
    the updater kept in the repository:

    - [Cdu]     embeds [src/cdu.ts];
    - [Part000] embeds [src/unnamed/part_000].

    [getCurrentIp], [getZoneId] and [updateDNSRecord] are textually the same
    in both files and are embedded once.  The two files differ in
    [getRecordIds] and in the body of the cron callback of [main]. *)

From Stdlib Require Import String Ascii List Arith Bool Lia Permutation NArith.
Import ListNotations.
Open Scope string_scope.
Open Scope list_scope.

(** ** JavaScript values and objects *)

(** The identifiers read from the provider ([data?.result[0]?.id]) are either
    [undefined] or a string. *)
Definition JsVal := option string.

(** Truthiness, as tested by [!zoneId] and [!recordIds[recordName]]:
    [undefined] and the empty string are falsy. *)
Definition truthy (v : JsVal) : bool :=
  match v with
  | Some s => negb (s =? "")
  | None => false
  end.

(** Interpolation of a value in a template literal. *)
Definition tpl (v : JsVal) : string :=
  match v with
  | Some s => s
  | None => "undefined"
  end.

(** [records.split(",")]. *)
Fixpoint split_comma (s : string) : list string :=
  match s with
  | EmptyString => [""]
  | String c r =>
      if Ascii.eqb c ","%char then "" :: split_comma r
      else match split_comma r with
           | h :: t => String c h :: t
           | [] => [String c ""]
           end
  end.

Module JsObject.

(** An object used as a map from record names to ids
    ([const idMap: Record<string, string> = {}]): its own properties, in
    creation order.  Every key the pass reads has been written before, so
    only own properties matter; the runtime, Deno, has no [__proto__]
    accessor, so every string is an ordinary key. *)
Definition t := list (string * JsVal).

Definition empty : t := [].

(** [o[k] = v]: an existing property keeps its place. *)
Fixpoint set (k : string) (v : JsVal) (o : t) : t :=
  match o with
  | [] => [(k, v)]
  | (k', v') :: r =>
      if k' =? k then (k', v) :: r else (k', v') :: set k v r
  end.

(** [o[k]]: [undefined] when there is no such property. *)
Fixpoint get (k : string) (o : t) : JsVal :=
  match o with
  | [] => None
  | (k', v') :: r => if k' =? k then v' else get k r
  end.

Definition keys (o : t) : list string := map fst o.

(** Array indices: the canonical decimal strings of 0 .. 2^32 - 2.
    Property enumeration lists them first, in ascending order. *)
Definition digit_of (c : ascii) : option N :=
  let n := N_of_ascii c in
  if ((48 <=? n) && (n <=? 57))%N then Some (n - 48)%N else None.

Fixpoint digits_value (s : string) (acc : N) : option N :=
  match s with
  | EmptyString => Some acc
  | String c r =>
      match digit_of c with
      | Some d => digits_value r (10 * acc + d)%N
      | None => None
      end
  end.

Definition array_index (k : string) : option N :=
  match k with
  | EmptyString => None
  | String c EmptyString => digit_of c
  | String c _ =>
      if Ascii.eqb c "0"%char then None
      else match digits_value k 0%N with
           | Some n => if (n <? 4294967295)%N then Some n else None
           | None => None
           end
  end.

Definition is_index (p : string * JsVal) : bool :=
  match array_index (fst p) with Some _ => true | None => false end.

Definition index_of (p : string * JsVal) : N :=
  match array_index (fst p) with Some n => n | None => 0%N end.

Fixpoint insert_index (p : string * JsVal) (l : t) : t :=
  match l with
  | [] => [p]
  | q :: r =>
      if (index_of p <=? index_of q)%N then p :: q :: r
      else q :: insert_index p r
  end.

Definition sort_index (l : t) : t := fold_right insert_index [] l.

(** The own properties in enumeration order: array indices ascending,
    then the other keys in creation order. *)
Definition own_properties (o : t) : t :=
  sort_index (filter is_index o) ++ filter (fun p => negb (is_index p)) o.

(** [Object.values(o)]. *)
Definition values (o : t) : list JsVal := map snd (own_properties o).

End JsObject.

(** ** Requests, responses and the outside world *)

(** The requests sent to the provider.  The headers are the same in every
    request and are left out; the fields are the strings interpolated in
    the URL and, for [PatchRecord], the [content] of the body. *)
Inductive Request :=
| GetZone (zoneName : string)
    (* GET /client/v4/zones?name=zoneName *)
| GetRecord (zoneId recordName : string)
    (* GET /client/v4/zones/zoneId/dns_records?name=recordName&type=A *)
| PatchRecord (zoneId recordId content : string).
    (* PATCH /client/v4/zones/zoneId/dns_records/recordId
       {type: "A", content} *)

(** How the task of a provider request goes once the request is out, as
    the code that awaits it sees it.  There are three ways.  The runtime
    raises an error, which the code passes on as it is: the promise of
    [fetch] rejects, or the answer cannot be read ([res.text()] or
    [res.json()] rejects on a body that is not what it should be, reading
    [data.result[0]] throws because [result] is absent).  The answer has a
    status that is not a success, and its text can be read.  The answer
    has a success status and a JSON body in which [data?.result[0]?.id]
    can be read: [ids] are the ids of the entries of [data.result], none
    when there is no entry; of the answer to an update the code wants a
    body that is JSON and no more. *)
Inductive Response :=
| NetworkFailure (reason : string)  (* the runtime raises [reason] *)
| NotOk                             (* [res.ok] is false *)
| Ok (ids : list string).           (* [res.ok]; the [id]s of [data.result] *)

(** What [fetch("https://api.ipify.org")] gives back; [getCurrentIp] reads
    the text whatever the status.  [IpFailure]: [fetch] or [res.text()]
    rejects. *)
Inductive IpResponse :=
| IpFailure (reason : string)
| IpText (text : string).

(** One pass runs against a world: the answer of the address service, the
    answer of the provider to each request, and, for each of the two
    fan-outs, the time at which the task of the i-th request settles.  The
    provider answers a request by what the request is: two identical
    requests of one pass get the same answer.  A success status with a
    body that is not the provider's JSON is the first case of [Response]:
    the error is the runtime's. *)
Record World := mkWorld {
  ipify : IpResponse;
  cloudflare : Request -> Response;
  lookup_latency : nat -> nat;
  update_latency : nat -> nat
}.

(** The errors a pass can end with. *)
Inductive Error :=
| FetchError (reason : string)
    (* an error of the runtime, passed on as it is: the rejection of
       [fetch], or of the reading of its answer *)
| FailedToFindZone (zoneName : string)  (* failed to find zone ${zoneName} *)
| ZoneDoesntExist (zone : string)       (* ${zone} doesn't exist *)
| FailedToFindRecord (recordName : string)
                                        (* failed to find record ${recordName} *)
| RecordDoesntExist (recordName : string)
                                        (* ${recordName} doesn't exist *)
| FailedToUpdate (recordId : string).   (* failed to update DNS record ${recordId} *)

(** What a pass does that can be observed. *)
Inductive Event :=
| AskIp                    (* the request to api.ipify.org *)
| CacheSet (ip : string)   (* cache.set(PREVIOUS_IP_ADDRESS, ip) *)
| Call (r : Request).      (* a request to the provider *)

(** [cache] holds one key only, [PREVIOUS_IP_ADDRESS], far below its bound
    of 10 entries: it is a cell that is empty or holds an address. *)
Definition Cache := option string.

Record Config := mkConfig {
  apiKey : string;
  email : string;
  zone : string;
  records : string
}.

Definition recordNames (cfg : Config) : list string :=
  split_comma (records cfg).

(** ** The monad of a pass: a cache, a log of events, errors *)

Record Run (A : Type) := mkRun {
  result : Error + A;
  cache_after : Cache;
  events : list Event
}.
Arguments mkRun {A} _ _ _.
Arguments result {A} _.
Arguments cache_after {A} _.
Arguments events {A} _.

Definition M (A : Type) := Cache -> Run A.

Definition ret {A} (a : A) : M A := fun c => mkRun (inr a) c [].

Definition throw {A} (e : Error) : M A := fun c => mkRun (inl e) c [].

Definition bind {A B} (m : M A) (k : A -> M B) : M B :=
  fun c =>
    let r := m c in
    match result r with
    | inl e => mkRun (inl e) (cache_after r) (events r)
    | inr a =>
        let r' := k a (cache_after r) in
        mkRun (result r') (cache_after r') (events r ++ events r')
    end.

Notation "x <- m ;; k" := (bind m (fun x => k))
  (at level 61, m at next level, right associativity).
Notation "m ;;; k" := (bind m (fun _ => k))
  (at level 61, right associativity).

Definition emit (ev : list Event) : M unit := fun c => mkRun (inr tt) c ev.

Definition cache_get : M JsVal := fun c => mkRun (inr c) c [].

Definition cache_set (ip : string) : M unit :=
  fun _ => mkRun (inr tt) (Some ip) [CacheSet ip].

Definition lift {A} (r : Error + A) : M A :=
  match r with
  | inl e => throw e
  | inr a => ret a
  end.

(** [previousIp === currentIp]. *)
Definition strict_eq (prev : JsVal) (cur : string) : bool :=
  match prev with
  | Some p => p =? cur
  | None => false
  end.

(** The provider requests of a log, in the order they were issued. *)
Fixpoint calls (evs : list Event) : list Request :=
  match evs with
  | [] => []
  | Call r :: rest => r :: calls rest
  | _ :: rest => calls rest
  end.

Definition is_patch (r : Request) : bool :=
  match r with PatchRecord _ _ _ => true | _ => false end.

Definition is_zone (r : Request) : bool :=
  match r with GetZone _ => true | _ => false end.

(** The update requests of a log. *)
Definition patches (evs : list Event) : list Request :=
  filter is_patch (calls evs).

(** ** Concurrent tasks *)

(** Each loop calls its async function [p()] for every element in turn; a
    call runs up to its first [await], which is the [fetch]: all the
    requests are issued, in the order of the list, before any task goes on.
    The tasks then settle in the order of their latencies; two tasks that
    settle at the same time do so in the order they were started. *)
Fixpoint insert_by (lat : nat -> nat) (i : nat) (l : list nat) : list nat :=
  match l with
  | [] => [i]
  | j :: r =>
      if (lat i <=? lat j)%nat then i :: j :: r else j :: insert_by lat i r
  end.

Definition completion_order (lat : nat -> nat) (n : nat) : list nat :=
  fold_right (insert_by lat) [] (seq 0 n).

(** The tasks run on, one settlement at a time, over a state [S]; the first
    task that throws rejects [Promise.all], and what the others do after
    that is lost to the caller. *)
Fixpoint settle {S T} (step : S -> T -> Error + S) (tasks : list T)
    (order : list nat) (s : S) : Error + S :=
  match order with
  | [] => inr s
  | i :: rest =>
      match nth_error tasks i with
      | None => settle step tasks rest s
      | Some t =>
          match step s t with
          | inl e => inl e
          | inr s' => settle step tasks rest s'
          end
      end
  end.

(** ** The functions shared by the two files *)

Section Shared.

Variable w : World.

Definition getCurrentIp : M string :=
  emit [AskIp] ;;;
  match ipify w with
  | IpFailure reason => throw (FetchError reason)
  | IpText text => ret text
  end.

Definition getZoneId (zoneName : string) : M JsVal :=
  emit [Call (GetZone zoneName)] ;;;
  match cloudflare w (GetZone zoneName) with
  | NetworkFailure reason => throw (FetchError reason)
  | NotOk => throw (FailedToFindZone zoneName)
  | Ok ids => ret (hd_error ids)
  end.

(** The rest of the task of [getRecordIds] for one record name, once its
    request is out: the value of [data?.result[0]?.id], or the error. *)
Definition lookup_task (zoneId : JsVal) (recordName : string)
  : Error + JsVal :=
  match cloudflare w (GetRecord (tpl zoneId) recordName) with
  | NetworkFailure reason => inl (FetchError reason)
  | NotOk => inl (FailedToFindRecord recordName)
  | Ok ids => inr (hd_error ids)
  end.

(** The rest of the task of [updateDNSRecord] for one record id. *)
Definition update_task (zoneId : JsVal) (newIpAddress : string)
    (recordId : JsVal) : Error + unit :=
  match cloudflare w
          (PatchRecord (tpl zoneId) (tpl recordId) newIpAddress) with
  | NetworkFailure reason => inl (FetchError reason)
  | NotOk => inl (FailedToUpdate (tpl recordId))
  | Ok _ => inr tt
  end.

Definition updateDNSRecord (zoneId : JsVal) (recordIds : list JsVal)
    (newIpAddress : string) : M unit :=
  emit (map (fun recordId =>
               Call (PatchRecord (tpl zoneId) (tpl recordId) newIpAddress))
            recordIds) ;;;
  lift (settle (fun _ recordId => update_task zoneId newIpAddress recordId)
          recordIds
          (completion_order (update_latency w) (length recordIds)) tt).

End Shared.

(** How a pass that does not fail ends. *)
Inductive Outcome :=
| NoChange   (* IP address doesn't change, skip *)
| Updated.

(** ** src/unnamed/part_000 *)

Module Part000.
Section Pass.

Variable w : World.

(** Each task writes [idMap[recordName]] when it settles. *)
Definition getRecordIds (zoneId : JsVal) (recordNames : list string)
  : M JsObject.t :=
  emit (map (fun recordName => Call (GetRecord (tpl zoneId) recordName))
            recordNames) ;;;
  lift (settle
          (fun idMap recordName =>
             match lookup_task w zoneId recordName with
             | inl e => inl e
             | inr id => inr (JsObject.set recordName id idMap)
             end)
          recordNames
          (completion_order (lookup_latency w) (length recordNames))
          JsObject.empty).

(** The cron callback of [main]. *)
Definition onTick (cfg : Config) : M Outcome :=
  currentIp <- getCurrentIp w ;;
  previousIp <- cache_get ;;
  if strict_eq previousIp currentIp then ret NoChange
  else
    cache_set currentIp ;;;
    zoneId <- getZoneId w (zone cfg) ;;
    if negb (truthy zoneId) then throw (ZoneDoesntExist (zone cfg))
    else
      let recordNames := recordNames cfg in
      recordIds <- getRecordIds zoneId recordNames ;;
      match find (fun recordName =>
                    negb (truthy (JsObject.get recordName recordIds)))
                 recordNames with
      | Some recordName => throw (RecordDoesntExist recordName)
      | None =>
          updateDNSRecord w zoneId (JsObject.values recordIds) currentIp ;;;
          ret Updated
      end.

End Pass.
End Part000.

(** ** src/cdu.ts *)

Module Cdu.
Section Pass.

Variable w : World.

(** [Promise.all(promises)]: the values in the order of the promises, or
    the error of the first task that throws. *)
Definition promise_all {A} (order : list nat) (tasks : list (Error + A))
  : Error + list A :=
  match settle (fun (_ : unit) (t : Error + A) =>
                  match t with inl e => inl e | inr _ => inr tt end)
               tasks order tt with
  | inl e => inl e
  | inr _ =>
      inr (flat_map (fun t => match t with inl _ => [] | inr a => [a] end)
                    tasks)
  end.

Definition getRecordIds (zoneId : JsVal) (recordNames : list string)
  : M (list JsVal) :=
  emit (map (fun recordName => Call (GetRecord (tpl zoneId) recordName))
            recordNames) ;;;
  lift (promise_all
          (completion_order (lookup_latency w) (length recordNames))
          (map (lookup_task w zoneId) recordNames)).

(** The cron callback of [main]. *)
Definition onTick (cfg : Config) : M Outcome :=
  currentIp <- getCurrentIp w ;;
  previousIp <- cache_get ;;
  if strict_eq previousIp currentIp then ret NoChange
  else
    cache_set currentIp ;;;
    zoneId <- getZoneId w (zone cfg) ;;
    let recordNames := recordNames cfg in
    recordIds <- getRecordIds zoneId recordNames ;;
    updateDNSRecord w zoneId recordIds currentIp ;;;
    ret Updated.

End Pass.
End Cdu.

(** ** Vocabulary of the statements *)

(** The tasks in the order they settle. *)
Definition pick {T} (tasks : list T) (order : list nat) : list T :=
  flat_map (fun i => match nth_error tasks i with
                     | Some t => [t]
                     | None => []
                     end) order.

Definition settled {T} (lat : nat -> nat) (tasks : list T) : list T :=
  pick tasks (completion_order lat (length tasks)).

(** [settle] over the tasks themselves rather than their positions. *)
Fixpoint run_tasks {S T} (step : S -> T -> Error + S) (l : list T) (s : S)
  : Error + S :=
  match l with
  | [] => inr s
  | t :: r =>
      match step s t with
      | inl e => inl e
      | inr s' => run_tasks step r s'
      end
  end.

(** The id the provider gives for a record name: the first match, if the
    lookup succeeds and matches anything. *)
Definition record_id (w : World) (zoneId recordName : string) : JsVal :=
  match cloudflare w (GetRecord zoneId recordName) with
  | Ok ids => hd_error ids
  | _ => None
  end.

(** The lookup of a record name is answered [Ok]: a success status, with a
    body in which the ids can be read. *)
Definition lookup_ok (w : World) (zoneId recordName : string) : bool :=
  match cloudflare w (GetRecord zoneId recordName) with
  | Ok _ => true
  | _ => false
  end.

(** The object left by writing [v n] under every name [n] of [l] in turn. *)
Definition written (v : string -> JsVal) (l : list string) (o : JsObject.t)
  : JsObject.t :=
  fold_left (fun idMap n => JsObject.set n (v n) idMap) l o.

(** The place of a task in an order of settlement. *)
Fixpoint position (order : list nat) (i : nat) : nat :=
  match order with
  | [] => 0
  | j :: rest => if (j =? i)%nat then 0 else S (position rest i)
  end.

(** A run seen after the events that came before it. *)
Definition prepend {A} (evs : list Event) (r : Run A) : Run A :=
  mkRun (result r) (cache_after r) (evs ++ events r).

(** A pass that ends with an error has failed. *)
Definition failed {A} (r : Run A) : bool :=
  match result r with inl _ => true | inr _ => false end.

(** A pass that ends as a no-op: nothing asked of the provider, the cache
    as it was. *)
Definition noop (c : Cache) (r : Run Outcome) : Prop :=
  result r = inr NoChange /\ calls (events r) = [] /\ cache_after r = c.

(** A pass that fails during zone resolution: it ends with an error after
    the zone request, the only request it made to the provider. *)
Definition zone_failure (cfg : Config) (r : Run Outcome) : Prop :=
  failed r = true /\ calls (events r) = [GetZone (zone cfg)].

(** The cache is written after the address is read and before anything is
    asked of the provider. *)
Definition cache_first (cfg : Config) (ip : string) (r : Run Outcome) : Prop :=
  cache_after r = Some ip /\
  exists rest,
    events r = AskIp :: CacheSet ip :: Call (GetZone (zone cfg)) :: rest /\
    forall ip', ~ In (CacheSet ip') rest.

(** Two passes that do the same up to the order of their updates: the same
    cache, the same way of ending (no change, updated, or failed), the same
    events in the same order up to the updates, and the same updates in
    some order. *)
Definition ending (r : Run Outcome) : option Outcome :=
  match result r with inl _ => None | inr o => Some o end.

Definition agree (p q : Run Outcome) : Prop :=
  cache_after p = cache_after q /\
  ending p = ending q /\
  exists pre up uq,
    events p = pre ++ map Call up /\
    events q = pre ++ map Call uq /\
    patches pre = [] /\
    Forall (fun r => is_patch r = true) up /\
    Permutation up uq.

(** ** Sample configurations and worlds *)

Module Sample.

Definition cfg : Config :=
  mkConfig "key" "me@example.com" "example.com"
           "a.example.com,b.example.com".

(** The same record name twice. *)
Definition cfg_twice : Config :=
  mkConfig "key" "me@example.com" "example.com"
           "a.example.com,a.example.com".

Definition request_eqb (p q : Request) : bool :=
  match p, q with
  | GetZone a, GetZone b => a =? b
  | GetRecord z a, GetRecord z' b => (z =? z') && (a =? b)
  | PatchRecord z a x, PatchRecord z' b y =>
      (z =? z') && (a =? b) && (x =? y)
  | _, _ => false
  end.

Definition matches (k : string) (l : list (string * string)) : list string :=
  map snd (filter (fun p => fst p =? k) l).

(** A provider that knows some zones and some records, and accepts every
    update. *)
Definition provider (zones recs : list (string * string)) (r : Request)
  : Response :=
  match r with
  | GetZone zoneName => Ok (matches zoneName zones)
  | GetRecord _ recordName => Ok (matches recordName recs)
  | PatchRecord _ _ _ => Ok []
  end.

(** The same provider, but for its answer to one request. *)
Definition except (q : Request) (a : Response) (f : Request -> Response)
    (r : Request) : Response :=
  if request_eqb r q then a else f r.

Definition in_order (i : nat) : nat := 0.
Definition second_first (i : nat) : nat :=
  match i with 0 => 1 | _ => 0 end.

Definition zones := [("example.com", "Z1")].
Definition both := [("a.example.com", "RA"); ("b.example.com", "RB")].

Definition ip := "203.0.113.7".

(** Both records exist. *)
Definition w_both : World :=
  mkWorld (IpText ip) (provider zones both) in_order in_order.

(** Both records exist; the lookup of the second one settles first. *)
Definition w_second_first : World :=
  mkWorld (IpText ip) (provider zones both) second_first in_order.

(** The provider has [a.example.com] only. *)
Definition w_only_a : World :=
  mkWorld (IpText ip) (provider zones [("a.example.com", "RA")])
          in_order in_order.

(** The provider has no such zone. *)
Definition w_no_zone : World :=
  mkWorld (IpText ip) (provider [] both) in_order in_order.

(** The zone lookup gets a non-success status. *)
Definition w_zone_down : World :=
  mkWorld (IpText ip)
          (except (GetZone "example.com") NotOk (provider zones both))
          in_order in_order.

(** The update of the first record gets a non-success status. *)
Definition w_update_fails : World :=
  mkWorld (IpText ip)
          (except (PatchRecord "Z1" "RA" ip) NotOk (provider zones both))
          in_order in_order.

(** The lookup of the first record gets a non-success status; the lookup
    of the second one fails in the network, and settles first. *)
Definition w_lookups_fail : World :=
  mkWorld (IpText ip)
          (except (GetRecord "Z1" "a.example.com") NotOk
             (except (GetRecord "Z1" "b.example.com")
                (NetworkFailure "connection reset")
                (provider zones both)))
          second_first in_order.

End Sample.

(** ** The job, and the record list as a string *)

(** [job.start()]: the callback runs once per tick, over the one [cache] of
    the module.  The passes are taken one after the other, each in its own
    world; [ticks] gives the runs of the passes made so far, so what holds
    of every [ticks] holds however long the job goes on. *)
Fixpoint ticks (tick : World -> Config -> M Outcome) (cfg : Config)
    (ws : list World) (c : Cache) : list (Run Outcome) :=
  match ws with
  | [] => []
  | w :: rest =>
      let r := tick w cfg c in
      r :: ticks tick cfg rest (cache_after r)
  end.

(** The cache once the passes are over. *)
Definition cache_at_end (rs : list (Run Outcome)) (c : Cache) : Cache :=
  last (map cache_after rs) c.

(** The last address that the address service gave, if it gave any. *)
Definition last_read (ws : list World) (c : Cache) : Cache :=
  fold_left (fun c w => match ipify w with
                        | IpText ip => Some ip
                        | IpFailure _ => c
                        end) ws c.

(** [names.join(",")], the inverse of [records.split(",")]. *)
Fixpoint join_comma (l : list string) : string :=
  match l with
  | [] => ""
  | s :: r =>
      match r with
      | [] => s
      | _ :: _ => String.append s (String ","%char (join_comma r))
      end
  end.

Fixpoint has_comma (s : string) : bool :=
  match s with
  | EmptyString => false
  | String c r => Ascii.eqb c ","%char || has_comma r
  end.

(** The string has a character that is not a decimal digit. *)
Fixpoint has_nondigit (s : string) : bool :=
  match s with
  | EmptyString => false
  | String c r =>
      match JsObject.digit_of c with
      | Some _ => has_nondigit r
      | None => true
      end
  end.

(** The update of a record id is answered [Ok]: a success status, with a
    JSON body. *)
Definition update_ok (w : World) (zoneId recordId ip : string) : bool :=
  match cloudflare w (PatchRecord zoneId recordId ip) with
  | Ok _ => true
  | _ => false
  end.

Module MoreSamples.

(** The address service cannot be reached. *)
Definition w_ip_down : World :=
  mkWorld (IpFailure "dns error") (Sample.provider Sample.zones Sample.both)
          Sample.in_order Sample.in_order.

(** The address has changed. *)
Definition w_moved : World :=
  mkWorld (IpText "198.51.100.9") (Sample.provider Sample.zones Sample.both)
          Sample.in_order Sample.in_order.

(** Both updates fail, the second one in the network; it settles first. *)
Definition w_updates_fail : World :=
  mkWorld (IpText Sample.ip)
          (Sample.except (PatchRecord "Z1" "RA" Sample.ip) NotOk
             (Sample.except (PatchRecord "Z1" "RB" Sample.ip)
                (NetworkFailure "timed out")
                (Sample.provider Sample.zones Sample.both)))
          Sample.in_order Sample.second_first.

(** The update of the first record fails in the network; the update of
    the second one is accepted. *)
Definition w_update_unreachable : World :=
  mkWorld (IpText Sample.ip)
          (Sample.except (PatchRecord "Z1" "RA" Sample.ip)
             (NetworkFailure "connection refused")
             (Sample.provider Sample.zones Sample.both))
          Sample.in_order Sample.in_order.

(** The zone lookup gets a success status with a body that has no
    [result]: reading [data.result[0]] throws. *)
Definition w_zone_unreadable : World :=
  mkWorld (IpText Sample.ip)
          (Sample.except (GetZone "example.com")
             (NetworkFailure "TypeError: Cannot read properties of undefined")
             (Sample.provider Sample.zones Sample.both))
          Sample.in_order Sample.in_order.

End MoreSamples.

(** * Properties *)

(** ** Settlement order *)

Lemma insert_by_perm lat i l : Permutation (insert_by lat i l) (i :: l).
Proof.
  induction l as [|j r IH]; simpl; [reflexivity|].
  destruct (lat i <=? lat j)%nat; [reflexivity|].
  rewrite IH. apply perm_swap.
Qed.

Lemma completion_order_perm lat n :
  Permutation (completion_order lat n) (seq 0 n).
Proof.
  unfold completion_order.
  induction (seq 0 n) as [|i l IH]; simpl; [reflexivity|].
  rewrite insert_by_perm. now constructor.
Qed.

Lemma pick_seq {T} (pre l : list T) :
  pick (pre ++ l) (seq (length pre) (length l)) = l.
Proof.
  revert pre. induction l as [|t l IH]; intros pre; simpl; [reflexivity|].
  rewrite nth_error_app2, Nat.sub_diag by lia. simpl. f_equal.
  specialize (IH (pre ++ [t])).
  rewrite <- app_assoc, length_app in IH. simpl in IH.
  now rewrite Nat.add_1_r in IH.
Qed.

Lemma settled_perm {T} lat (tasks : list T) :
  Permutation (settled lat tasks) tasks.
Proof.
  unfold settled, pick.
  rewrite (Permutation_flat_map _ (completion_order_perm lat (length tasks))).
  exact (eq_ind _ (fun l => Permutation l tasks) (Permutation_refl _) _
           (eq_sym (pick_seq [] tasks))).
Qed.

Lemma settled_In {T} lat (tasks : list T) t :
  In t (settled lat tasks) <-> In t tasks.
Proof.
  split; apply Permutation_in;
    [apply settled_perm | apply Permutation_sym, settled_perm].
Qed.

Lemma settle_run {S T} (step : S -> T -> Error + S) tasks order s :
  settle step tasks order s = run_tasks step (pick tasks order) s.
Proof.
  revert s. induction order as [|i rest IH]; intros s; simpl; [reflexivity|].
  destruct (nth_error tasks i) as [t|]; simpl; [|apply IH].
  destruct (step s t); [reflexivity|apply IH].
Qed.

(** ** Every order is an order of settlement *)

Lemma insert_by_at lat a m1 m2 :
  (forall j, In j m1 -> lat j < lat a) ->
  (forall j, In j m2 -> lat a <= lat j) ->
  insert_by lat a (m1 ++ m2) = m1 ++ a :: m2.
Proof.
  intros H1 H2. induction m1 as [|j m1 IH]; simpl.
  - destruct m2 as [|j r]; [reflexivity|]. simpl.
    now rewrite (proj2 (Nat.leb_le _ _) (H2 j (or_introl eq_refl))).
  - rewrite (proj2 (Nat.leb_gt _ _) (H1 j (or_introl eq_refl))).
    f_equal. apply IH. intros k Hk. apply H1. now right.
Qed.

Lemma position_lt s t j : In j s -> position (s ++ t) j < length s.
Proof.
  induction s as [|k s IH]; [easy|]. intros Hj. simpl.
  destruct (k =? j)%nat eqn:E; [lia|].
  apply Nat.eqb_neq in E. destruct Hj as [?|Hj]; [easy|].
  specialize (IH Hj). lia.
Qed.

Lemma position_ge s t j : ~ In j s -> length s <= position (s ++ t) j.
Proof.
  induction s as [|k s IH]; intros Hj; simpl; [lia|].
  destruct (k =? j)%nat eqn:E.
  - apply Nat.eqb_eq in E. subst. elim Hj. now left.
  - assert (~ In j s) by (intros ?; apply Hj; now right).
    specialize (IH H). lia.
Qed.

Lemma position_here s t a : ~ In a s -> position (s ++ a :: t) a = length s.
Proof.
  induction s as [|k s IH]; intros Ha; simpl.
  - now rewrite Nat.eqb_refl.
  - destruct (k =? a)%nat eqn:E.
    + apply Nat.eqb_eq in E. subst. elim Ha. now left.
    + rewrite IH; [easy|]. intros ?. apply Ha. now right.
Qed.

Lemma filter_member_skip a l s :
  ~ In a s ->
  filter (fun x => existsb (Nat.eqb x) (a :: l)) s
  = filter (fun x => existsb (Nat.eqb x) l) s.
Proof.
  intros Ha. apply filter_ext_in. intros x Hx. simpl.
  destruct (x =? a)%nat eqn:E; [|reflexivity].
  apply Nat.eqb_eq in E. subst. easy.
Qed.

Lemma existsb_absent a l : ~ In a l -> existsb (Nat.eqb a) l = false.
Proof.
  intros Ha. destruct (existsb (Nat.eqb a) l) eqn:E; [|reflexivity].
  apply existsb_exists in E. destruct E as (x & Hx & Heq).
  apply Nat.eqb_eq in Heq. now subst.
Qed.

(** Sorting by the places in [order] picks the tasks out of [order]. *)
Lemma sort_by_position order l :
  NoDup order -> NoDup l -> incl l order ->
  fold_right (insert_by (position order)) [] l
  = filter (fun x => existsb (Nat.eqb x) l) order.
Proof.
  intros Hnd. induction l as [|a l IH]; intros Hl Hincl.
  - simpl. clear. induction order as [|x r IHr]; [reflexivity|exact IHr].
  - apply NoDup_cons_iff in Hl. destruct Hl as [Ha Hl].
    cbn [fold_right]. rewrite IH by (auto; intros x Hx; apply Hincl; now right).
    destruct (in_split a order (Hincl a (or_introl eq_refl)))
      as (s1 & s2 & ->).
    apply NoDup_remove in Hnd. destruct Hnd as [Hnd Hout].
    assert (Ha1 : ~ In a s1) by (intros ?; apply Hout, in_or_app; now left).
    assert (Ha2 : ~ In a s2) by (intros ?; apply Hout, in_or_app; now right).
    rewrite !filter_app. cbn [filter].
    rewrite (existsb_absent a l Ha).
    change (existsb (Nat.eqb a) (a :: l))
      with ((a =? a)%nat || existsb (Nat.eqb a) l).
    rewrite Nat.eqb_refl. cbn [orb].
    rewrite !(filter_member_skip a l) by easy.
    apply insert_by_at.
    + intros j Hj. apply filter_In in Hj. destruct Hj as [Hj _].
      rewrite position_here by easy. now apply position_lt.
    + intros j Hj. apply filter_In in Hj. destruct Hj as [Hj _].
      rewrite position_here by easy. apply position_ge.
      intros Hj1. apply NoDup_app_remove_r in Hnd as Hnd1.
      clear -Hnd Hj Hj1. induction s1 as [|k s1 IH]; [easy|].
      simpl in Hnd. apply NoDup_cons_iff in Hnd. destruct Hnd as [Hk Hnd].
      destruct Hj1 as [->|Hj1]; [apply Hk, in_or_app; now right|auto].
Qed.

(** Any order of the n tasks is the order in which they settle for some
    latencies: the theorems that hold for every world hold for every order
    of settlement. *)
Lemma every_order_settles n order :
  Permutation order (seq 0 n) ->
  completion_order (position order) n = order.
Proof.
  intros Hperm. unfold completion_order.
  assert (Hnd : NoDup order).
  { apply (Permutation_NoDup (Permutation_sym Hperm)), seq_NoDup. }
  rewrite sort_by_position;
    [|easy|apply seq_NoDup
     |intros x Hx; now apply (Permutation_in _ (Permutation_sym Hperm))].
  assert (Hall : forall x, In x order ->
                           existsb (Nat.eqb x) (seq 0 n) = true).
  { intros x Hx. apply existsb_exists. exists x.
    split; [now apply (Permutation_in _ Hperm)|apply Nat.eqb_refl]. }
  clear -Hall. induction order as [|x r IH]; [reflexivity|].
  simpl. rewrite (Hall x (or_introl eq_refl)). f_equal.
  apply IH. intros y Hy. apply Hall. now right.
Qed.

(** ** Tasks whose failure does not depend on the state *)

Section RunTasks.

Context {S T X : Type}.
Variable task : T -> Error + X.
Variable upd : S -> T -> X -> S.

Let step (s : S) (t : T) : Error + S :=
  match task t with
  | inl e => inl e
  | inr x => inr (upd s t x)
  end.

Lemma run_tasks_ok (val : T -> X) l s :
  (forall t, In t l -> task t = inr (val t)) ->
  run_tasks step l s = inr (fold_left (fun s t => upd s t (val t)) l s).
Proof.
  revert s. induction l as [|t r IH]; intros s H; simpl; [reflexivity|].
  unfold step at 1. rewrite (H t (or_introl eq_refl)).
  apply IH. intros u Hu. apply H. now right.
Qed.

Lemma run_tasks_inr l s s' :
  run_tasks step l s = inr s' ->
  forall t, In t l -> exists x, task t = inr x.
Proof.
  revert s. induction l as [|t r IH]; intros s H u Hu; [easy|].
  simpl in H. unfold step at 1 in H.
  destruct (task t) as [e|x] eqn:Et; [discriminate|].
  destruct Hu as [<-|Hu]; [eauto|]. eapply IH; eauto.
Qed.

(** The error is that of the first task, in the order of [l], that fails. *)
Lemma run_tasks_first l s :
  (exists t, In t l /\ exists e, task t = inl e) ->
  exists pre t post e,
    l = pre ++ t :: post /\
    (forall u, In u pre -> exists x, task u = inr x) /\
    task t = inl e /\
    run_tasks step l s = inl e.
Proof.
  revert s. induction l as [|t r IH]; intros s [u [Hu [e He]]]; [easy|].
  simpl. unfold step at 1.
  destruct (task t) as [e'|x] eqn:Et.
  - exists [], t, r, e'. repeat split; try easy.
  - destruct Hu as [->|Hu]; [congruence|].
    destruct (IH (upd s t x)) as (pre & t' & post & e' & -> & Hpre & Ht' & Hr);
      [eauto|].
    exists (t :: pre), t', post, e'. repeat split; try easy.
    intros v [<-|Hv]; eauto.
Qed.

Lemma run_tasks_inl l s e :
  run_tasks step l s = inl e -> exists t, In t l /\ task t = inl e.
Proof.
  revert s. induction l as [|t r IH]; intros s H; [discriminate|].
  simpl in H. unfold step at 1 in H.
  destruct (task t) as [e'|x] eqn:Et.
  - injection H as <-. exists t. split; [now left|easy].
  - destruct (IH _ H) as (u & Hu & He). exists u. split; [now right|easy].
Qed.

End RunTasks.

(** ** Objects used as maps *)

Module JsObjectFacts.
Import JsObject.

Lemma get_set_same k v o : get k (set k v o) = v.
Proof.
  induction o as [|[k' v'] r IH]; simpl.
  - now rewrite String.eqb_refl.
  - destruct (k' =? k) eqn:E; simpl; rewrite E; easy.
Qed.

Lemma get_set_other k k' v o : k <> k' -> get k' (set k v o) = get k' o.
Proof.
  intros Hne. induction o as [|[k0 v0] r IH]; simpl.
  - destruct (k =? k') eqn:E; [apply String.eqb_eq in E; easy|easy].
  - destruct (k0 =? k) eqn:E; simpl.
    + apply String.eqb_eq in E. subst k0.
      destruct (k =? k') eqn:E'; [apply String.eqb_eq in E'; easy|easy].
    + now rewrite IH.
Qed.

Lemma keys_set k v o :
  keys (set k v o) = if in_dec string_dec k (keys o) then keys o
                     else keys o ++ [k].
Proof.
  unfold keys.
  induction o as [|[k' v'] r IH]; simpl; [reflexivity|].
  destruct (k' =? k) eqn:E.
  - apply String.eqb_eq in E. subst k'. simpl.
    destruct (string_dec k k); [|easy].
    reflexivity.
  - apply String.eqb_neq in E. simpl. rewrite IH.
    destruct (string_dec k' k); [easy|].
    destruct (in_dec string_dec k (map fst r)); reflexivity.
Qed.

Lemma In_keys_set k v o n : In n (keys (set k v o)) <-> n = k \/ In n (keys o).
Proof.
  rewrite keys_set. destruct (in_dec string_dec k (keys o)) as [Hin|Hout].
  - split; [now right|]. intros [->|H]; easy.
  - rewrite in_app_iff. simpl. split.
    + intros [H|[->|[]]]; auto.
    + intros [->|H]; auto.
Qed.

Lemma NoDup_keys_set k v o : NoDup (keys o) -> NoDup (keys (set k v o)).
Proof.
  intros Hnd. rewrite keys_set.
  destruct (in_dec string_dec k (keys o)) as [Hin|Hout]; [easy|].
  apply NoDup_app; [easy|repeat constructor; easy|].
  intros x Hx [<-|[]]. easy.
Qed.

Lemma In_set n x k v o :
  In (n, x) (set k v o) -> (n = k /\ x = v) \/ In (n, x) o.
Proof.
  induction o as [|[k' v'] r IH]; simpl.
  - intros [H|[]]. injection H as <- <-. now left.
  - destruct (k' =? k) eqn:E; simpl.
    + apply String.eqb_eq in E. subst k'.
      intros [H|H]; [injection H as <- <-; now left|now right; right].
    + intros [H|H]; [now right; left|].
      destruct (IH H) as [?|?]; [now left|now right; right].
Qed.

Lemma insert_index_perm p l : Permutation (insert_index p l) (p :: l).
Proof.
  induction l as [|q r IH]; simpl; [reflexivity|].
  destruct (index_of p <=? index_of q)%N; [reflexivity|].
  rewrite IH. apply perm_swap.
Qed.

Lemma sort_index_perm l : Permutation (sort_index l) l.
Proof.
  induction l as [|p l IH]; simpl; [reflexivity|].
  rewrite insert_index_perm. now constructor.
Qed.

Lemma filter_split {A} (f : A -> bool) l :
  Permutation (filter f l ++ filter (fun a => negb (f a)) l) l.
Proof.
  induction l as [|a l IH]; simpl; [reflexivity|].
  destruct (f a); simpl.
  - now constructor.
  - rewrite <- Permutation_middle. now constructor.
Qed.

(** Enumeration reorders the properties and loses none. *)
Lemma own_properties_perm o : Permutation (own_properties o) o.
Proof.
  unfold own_properties. rewrite sort_index_perm. apply filter_split.
Qed.

Lemma values_perm o : Permutation (values o) (map snd o).
Proof. unfold values. apply Permutation_map, own_properties_perm. Qed.

Lemma values_length o : length (values o) = length o.
Proof.
  rewrite (Permutation_length (values_perm o)). apply length_map.
Qed.

End JsObjectFacts.

(** ** The object built by the lookups *)

Section Written.

Variable v : string -> JsVal.

Lemma written_keys l o n :
  In n (JsObject.keys (written v l o)) <-> In n l \/ In n (JsObject.keys o).
Proof.
  revert o. induction l as [|k l IH]; intros o; simpl; [tauto|].
  unfold written in *. simpl. rewrite IH, JsObjectFacts.In_keys_set.
  intuition auto.
Qed.

Lemma written_NoDup l o :
  NoDup (JsObject.keys o) -> NoDup (JsObject.keys (written v l o)).
Proof.
  revert o. induction l as [|k l IH]; intros o H; simpl; [easy|].
  apply IH, JsObjectFacts.NoDup_keys_set, H.
Qed.

Lemma written_entries l o n x :
  In (n, x) (written v l o) -> x = v n \/ In (n, x) o.
Proof.
  revert o. induction l as [|k l IH]; intros o H; simpl in *; [now right|].
  destruct (IH _ H) as [?|H']; [now left|].
  destruct (JsObjectFacts.In_set _ _ _ _ _ H') as [[-> ->]|?]; auto.
Qed.

Lemma written_get l o n :
  In n l -> JsObject.get n (written v l o) = v n.
Proof.
  revert o. induction l as [|k l IH]; intros o; [easy|].
  intros Hin. simpl.
  destruct (in_dec string_dec n l) as [Hl|Hl]; [now apply IH|].
  destruct Hin as [->|?]; [|easy].
  clear IH. revert o.
  assert (G : forall o, ~ In n l ->
              JsObject.get n (written v l o) = JsObject.get n o).
  { clear. induction l as [|k l IH]; intros o Hn; [reflexivity|].
    simpl. rewrite IH by (intros ?; apply Hn; now right).
    apply JsObjectFacts.get_set_other. intros ->. apply Hn. now left. }
  intros o. rewrite G by easy. apply JsObjectFacts.get_set_same.
Qed.

(** Over the empty object: one property per distinct name. *)
Lemma written_length l :
  length (written v l JsObject.empty) = length (nodup string_dec l).
Proof.
  rewrite <- (length_map fst).
  apply Permutation_length, NoDup_Permutation.
  - apply written_NoDup. constructor.
  - apply NoDup_nodup.
  - intros n. fold (JsObject.keys (written v l JsObject.empty)).
    rewrite written_keys, nodup_In. simpl. tauto.
Qed.

(** The object only depends on the order of the names for the order of
    its properties. *)
Lemma written_keys_perm l :
  Permutation (JsObject.keys (written v l JsObject.empty))
              (nodup string_dec l).
Proof.
  apply NoDup_Permutation.
  - apply written_NoDup. constructor.
  - apply NoDup_nodup.
  - intros n. rewrite written_keys, nodup_In. simpl. tauto.
Qed.

End Written.

Lemma nodup_shorter (l : list string) :
  ~ NoDup l -> length (nodup string_dec l) < length l.
Proof.
  induction l as [|a l IH]; intros H.
  - exfalso. apply H. constructor.
  - simpl. destruct (in_dec string_dec a l) as [Hin|Hout].
      assert (length (nodup string_dec l) <= length l).
      { clear. induction l as [|b l IH]; simpl; [lia|].
        destruct (in_dec string_dec b l); simpl; lia. }
      lia.
    + simpl. apply -> Nat.succ_lt_mono. apply IH. intros Hnd. apply H.
      now constructor.
Qed.

(** ** What each function does, as one run *)

Lemma emit_lift {A} evs (r : Error + A) c :
  (emit evs ;;; lift r) c = mkRun r c evs.
Proof.
  destruct r; unfold bind, emit, lift, throw, ret; simpl;
    now rewrite ?app_nil_r.
Qed.

Lemma run_tasks_ext {S T} (f g : S -> T -> Error + S) l s :
  (forall s t, f s t = g s t) -> run_tasks f l s = run_tasks g l s.
Proof.
  intros H. revert s. induction l as [|t l IH]; intros s; simpl; [easy|].
  rewrite H. destruct (g s t); [easy|apply IH].
Qed.

Lemma pick_map {A B} (f : A -> B) l order :
  pick (map f l) order = map f (pick l order).
Proof.
  unfold pick. induction order as [|i r IH]; simpl; [reflexivity|].
  rewrite map_app, IH, nth_error_map.
  destruct (nth_error l i); reflexivity.
Qed.

Section Runs.

Variable w : World.

Lemma getCurrentIp_run c :
  getCurrentIp w c =
  mkRun (match ipify w with
         | IpFailure reason => inl (FetchError reason)
         | IpText text => inr text
         end) c [AskIp].
Proof.
  unfold getCurrentIp, bind, emit. simpl.
  destruct (ipify w); reflexivity.
Qed.

Lemma getZoneId_run zoneName c :
  getZoneId w zoneName c =
  mkRun (match cloudflare w (GetZone zoneName) with
         | NetworkFailure reason => inl (FetchError reason)
         | NotOk => inl (FailedToFindZone zoneName)
         | Ok ids => inr (hd_error ids)
         end) c [Call (GetZone zoneName)].
Proof.
  unfold getZoneId, bind, emit. simpl.
  destruct (cloudflare w (GetZone zoneName)); reflexivity.
Qed.

Lemma updateDNSRecord_run zoneId recordIds ip c :
  updateDNSRecord w zoneId recordIds ip c =
  mkRun (run_tasks (fun _ recordId => update_task w zoneId ip recordId)
           (settled (update_latency w) recordIds) tt)
        c
        (map (fun recordId =>
                Call (PatchRecord (tpl zoneId) (tpl recordId) ip))
             recordIds).
Proof. unfold updateDNSRecord. now rewrite emit_lift, settle_run. Qed.

Lemma Part000_getRecordIds_run zoneId names c :
  Part000.getRecordIds w zoneId names c =
  mkRun (run_tasks
           (fun idMap recordName =>
              match lookup_task w zoneId recordName with
              | inl e => inl e
              | inr id => inr (JsObject.set recordName id idMap)
              end)
           (settled (lookup_latency w) names) JsObject.empty)
        c
        (map (fun recordName => Call (GetRecord (tpl zoneId) recordName))
             names).
Proof. unfold Part000.getRecordIds. now rewrite emit_lift, settle_run. Qed.

Lemma Cdu_getRecordIds_run zoneId names c :
  Cdu.getRecordIds w zoneId names c =
  mkRun (Cdu.promise_all
           (completion_order (lookup_latency w) (length names))
           (map (lookup_task w zoneId) names))
        c
        (map (fun recordName => Call (GetRecord (tpl zoneId) recordName))
             names).
Proof. unfold Cdu.getRecordIds. now rewrite emit_lift. Qed.

End Runs.

Lemma strict_eq_false c ip : c <> Some ip -> strict_eq c ip = false.
Proof.
  destruct c as [p|]; simpl; [|easy].
  intros H. apply String.eqb_neq. congruence.
Qed.

Lemma strict_eq_true ip : strict_eq (Some ip) ip = true.
Proof. apply String.eqb_refl. Qed.

Lemma bind_run {A B} (m : M A) (k : A -> M B) c :
  bind m k c =
  match result (m c) with
  | inl e => mkRun (inl e) (cache_after (m c)) (events (m c))
  | inr a => prepend (events (m c)) (k a (cache_after (m c)))
  end.
Proof. reflexivity. Qed.

Ltac pass_step :=
  rewrite bind_run;
  rewrite ?getCurrentIp_run, ?getZoneId_run, ?updateDNSRecord_run,
    ?Part000_getRecordIds_run, ?Cdu_getRecordIds_run;
  cbn [result cache_after events cache_get cache_set ret throw].

Section BigStep.

Variable w : World.
Variable cfg : Config.

(** The update step, as the last step of a pass. *)
Lemma update_step_run zoneId recordIds ip c :
  (updateDNSRecord w zoneId recordIds ip ;;; ret Updated) c =
  mkRun (match run_tasks
                 (fun _ recordId => update_task w zoneId ip recordId)
                 (settled (update_latency w) recordIds) tt with
         | inl e => inl e
         | inr _ => inr Updated
         end)
        c
        (map (fun recordId =>
                Call (PatchRecord (tpl zoneId) (tpl recordId) ip))
             recordIds).
Proof.
  pass_step.
  destruct (run_tasks _ _ _); [reflexivity|].
  unfold prepend. cbn [result cache_after events].
  now rewrite app_nil_r.
Qed.

Lemma Part000_records_run zoneId ip c :
  (recordIds <- Part000.getRecordIds w zoneId (recordNames cfg) ;;
   match find (fun recordName =>
                 negb (truthy (JsObject.get recordName recordIds)))
              (recordNames cfg) with
   | Some recordName => throw (RecordDoesntExist recordName)
   | None =>
       updateDNSRecord w zoneId (JsObject.values recordIds) ip ;;;
       ret Updated
   end) c =
  prepend
    (map (fun recordName => Call (GetRecord (tpl zoneId) recordName))
         (recordNames cfg))
    match run_tasks
            (fun idMap recordName =>
               match lookup_task w zoneId recordName with
               | inl e => inl e
               | inr id => inr (JsObject.set recordName id idMap)
               end)
            (settled (lookup_latency w) (recordNames cfg))
            JsObject.empty with
    | inl e => mkRun (inl e) c []
    | inr idMap =>
        match find (fun recordName =>
                      negb (truthy (JsObject.get recordName idMap)))
                   (recordNames cfg) with
        | Some recordName => mkRun (inl (RecordDoesntExist recordName)) c []
        | None =>
            mkRun (match run_tasks
                           (fun _ recordId =>
                              update_task w zoneId ip recordId)
                           (settled (update_latency w)
                              (JsObject.values idMap)) tt with
                   | inl e => inl e
                   | inr _ => inr Updated
                   end)
                  c
                  (map (fun recordId =>
                          Call (PatchRecord (tpl zoneId) (tpl recordId) ip))
                       (JsObject.values idMap))
        end
    end.
Proof.
  pass_step.
  destruct (run_tasks _ _ _) as [e|idMap].
  - unfold prepend. cbn [result cache_after events]. now rewrite app_nil_r.
  - f_equal. destruct (find _ _); [reflexivity|]. apply update_step_run.
Qed.

Lemma Part000_onTick_run c :
  Part000.onTick w cfg c =
  match ipify w with
  | IpFailure reason => mkRun (inl (FetchError reason)) c [AskIp]
  | IpText ip =>
      if strict_eq c ip then mkRun (inr NoChange) c [AskIp]
      else
        prepend [AskIp; CacheSet ip; Call (GetZone (zone cfg))]
          match cloudflare w (GetZone (zone cfg)) with
          | NetworkFailure reason =>
              mkRun (inl (FetchError reason)) (Some ip) []
          | NotOk => mkRun (inl (FailedToFindZone (zone cfg))) (Some ip) []
          | Ok ids =>
              if negb (truthy (hd_error ids))
              then mkRun (inl (ZoneDoesntExist (zone cfg))) (Some ip) []
              else
                (recordIds <- Part000.getRecordIds w (hd_error ids)
                                (recordNames cfg) ;;
                 match find (fun recordName =>
                               negb (truthy
                                       (JsObject.get recordName recordIds)))
                            (recordNames cfg) with
                 | Some recordName => throw (RecordDoesntExist recordName)
                 | None =>
                     updateDNSRecord w (hd_error ids)
                       (JsObject.values recordIds) ip ;;;
                     ret Updated
                 end) (Some ip)
          end
  end.
Proof.
  unfold Part000.onTick. pass_step.
  destruct (ipify w) as [reason|ip]; [reflexivity|].
  pass_step. destruct (strict_eq c ip); [reflexivity|].
  pass_step. pass_step.
  destruct (cloudflare w (GetZone (zone cfg))) as [reason| |ids];
    try reflexivity.
  destruct (negb (truthy (hd_error ids))); reflexivity.
Qed.

Lemma Cdu_onTick_run c :
  Cdu.onTick w cfg c =
  match ipify w with
  | IpFailure reason => mkRun (inl (FetchError reason)) c [AskIp]
  | IpText ip =>
      if strict_eq c ip then mkRun (inr NoChange) c [AskIp]
      else
        prepend [AskIp; CacheSet ip; Call (GetZone (zone cfg))]
          match cloudflare w (GetZone (zone cfg)) with
          | NetworkFailure reason =>
              mkRun (inl (FetchError reason)) (Some ip) []
          | NotOk => mkRun (inl (FailedToFindZone (zone cfg))) (Some ip) []
          | Ok ids =>
              prepend
                (map (fun recordName =>
                        Call (GetRecord (tpl (hd_error ids)) recordName))
                     (recordNames cfg))
                match Cdu.promise_all
                        (completion_order (lookup_latency w)
                           (length (recordNames cfg)))
                        (map (lookup_task w (hd_error ids))
                             (recordNames cfg)) with
                | inl e => mkRun (inl e) (Some ip) []
                | inr recordIds =>
                    mkRun (match run_tasks
                                   (fun _ recordId =>
                                      update_task w (hd_error ids) ip
                                        recordId)
                                   (settled (update_latency w) recordIds)
                                   tt with
                           | inl e => inl e
                           | inr _ => inr Updated
                           end)
                          (Some ip)
                          (map (fun recordId =>
                                  Call (PatchRecord (tpl (hd_error ids))
                                          (tpl recordId) ip))
                               recordIds)
                end
          end
  end.
Proof.
  unfold Cdu.onTick. pass_step.
  destruct (ipify w) as [reason|ip]; [reflexivity|].
  pass_step. destruct (strict_eq c ip); [reflexivity|].
  pass_step. pass_step.
  destruct (cloudflare w (GetZone (zone cfg))) as [reason| |ids];
    try reflexivity.
  pass_step.
  destruct (Cdu.promise_all _ _) as [e|recordIds].
  - unfold prepend. cbn [result cache_after events app].
    now rewrite app_nil_r.
  - now rewrite update_step_run.
Qed.

End BigStep.

(** ** Logs *)

Lemma calls_app a b : calls (a ++ b) = calls a ++ calls b.
Proof.
  induction a as [|[| |r] a IH]; simpl; try easy. now rewrite IH.
Qed.

Lemma calls_map_Call {A} (f : A -> Request) l :
  calls (map (fun a => Call (f a)) l) = map f l.
Proof. induction l as [|a l IH]; simpl; [easy|now rewrite IH]. Qed.

Lemma filter_map_none {A} (p : Request -> bool) (f : A -> Request) l :
  (forall a, p (f a) = false) -> filter p (map f l) = [].
Proof.
  intros H. induction l as [|a l IH]; simpl; [easy|]. now rewrite H.
Qed.

Lemma filter_map_all {A} (p : Request -> bool) (f : A -> Request) l :
  (forall a, p (f a) = true) -> filter p (map f l) = map f l.
Proof.
  intros H. induction l as [|a l IH]; simpl; [easy|]. now rewrite H, IH.
Qed.

(** ** The shape of a pass that sees a new address *)

Lemma Part000_shape w cfg c ip :
  ipify w = IpText ip -> c <> Some ip ->
  exists res reqs,
    filter is_zone reqs = [] /\
    Part000.onTick w cfg c =
    mkRun res (Some ip)
          (AskIp :: CacheSet ip :: map Call (GetZone (zone cfg) :: reqs)).
Proof.
  intros Hip Hc.
  rewrite Part000_onTick_run, Hip, (strict_eq_false _ _ Hc).
  destruct (cloudflare w (GetZone (zone cfg))) as [reason| |ids];
    [now eexists _, [] | now eexists _, [] |].
  destruct (negb (truthy (hd_error ids))); [now eexists _, []|].
  rewrite Part000_records_run.
  destruct (run_tasks _ _ _) as [e|idMap].
  - eexists _, (map _ (recordNames cfg)).
    split; [|unfold prepend; cbn [result cache_after events app map];
              rewrite app_nil_r; now rewrite map_map].
    now apply filter_map_none.
  - destruct (find _ _).
    + eexists _, (map _ (recordNames cfg)).
      split; [|unfold prepend; cbn [result cache_after events app map];
                rewrite app_nil_r; now rewrite map_map].
      now apply filter_map_none.
    + eexists _, (map _ (recordNames cfg) ++ map _ (JsObject.values idMap)).
      split; [|unfold prepend; cbn [result cache_after events app map];
                now rewrite map_app, !map_map].
      now rewrite filter_app, !filter_map_none.
Qed.

Lemma Cdu_shape w cfg c ip :
  ipify w = IpText ip -> c <> Some ip ->
  exists res reqs,
    filter is_zone reqs = [] /\
    Cdu.onTick w cfg c =
    mkRun res (Some ip)
          (AskIp :: CacheSet ip :: map Call (GetZone (zone cfg) :: reqs)).
Proof.
  intros Hip Hc.
  rewrite Cdu_onTick_run, Hip, (strict_eq_false _ _ Hc).
  destruct (cloudflare w (GetZone (zone cfg))) as [reason| |ids];
    [now eexists _, [] | now eexists _, [] |].
  destruct (Cdu.promise_all _ _) as [e|recordIds].
  - eexists _, (map _ (recordNames cfg)).
    split; [|unfold prepend; cbn [result cache_after events app map];
              rewrite app_nil_r; now rewrite map_map].
    now apply filter_map_none.
  - eexists _, (map _ (recordNames cfg) ++ map _ recordIds).
    split; [|unfold prepend; cbn [result cache_after events app map];
              now rewrite map_app, !map_map].
    now rewrite filter_app, !filter_map_none.
Qed.

Lemma shape_cache_first cfg ip res reqs :
  cache_first cfg ip
    (mkRun res (Some ip)
       (AskIp :: CacheSet ip :: map Call (GetZone (zone cfg) :: reqs))).
Proof.
  split; [reflexivity|]. exists (map Call reqs). split; [reflexivity|].
  intros ip'. rewrite in_map_iff. now intros (a & H & _).
Qed.

Lemma noop_unchanged_Part000 w cfg ip :
  ipify w = IpText ip -> noop (Some ip) (Part000.onTick w cfg (Some ip)).
Proof.
  intros Hip. rewrite Part000_onTick_run, Hip, strict_eq_true.
  now repeat split.
Qed.

Lemma noop_unchanged_Cdu w cfg ip :
  ipify w = IpText ip -> noop (Some ip) (Cdu.onTick w cfg (Some ip)).
Proof.
  intros Hip. rewrite Cdu_onTick_run, Hip, strict_eq_true.
  now repeat split.
Qed.

(** ** C3: the same address twice *)

(** C3.  When the address service returns the very string the cache holds,
    the pass of either file ends as a no-op: it asks nothing of the provider
    (no zone lookup, no record lookup, no update) and leaves the cache as it
    was.  The address request is all the pass does. *)
Theorem unchanged_address_is_noop w cfg ip :
  ipify w = IpText ip ->
  (noop (Some ip) (Part000.onTick w cfg (Some ip)) /\
   events (Part000.onTick w cfg (Some ip)) = [AskIp]) /\
  (noop (Some ip) (Cdu.onTick w cfg (Some ip)) /\
   events (Cdu.onTick w cfg (Some ip)) = [AskIp]).
Proof.
  intros Hip. repeat split;
    try (apply noop_unchanged_Part000; assumption);
    try (apply noop_unchanged_Cdu; assumption).
  - now rewrite Part000_onTick_run, Hip, strict_eq_true.
  - now rewrite Cdu_onTick_run, Hip, strict_eq_true.
Qed.

Lemma unchanged_address_is_noop_witness :
  ipify Sample.w_both = IpText Sample.ip /\
  (noop (Some Sample.ip)
     (Part000.onTick Sample.w_both Sample.cfg (Some Sample.ip)) /\
   events (Part000.onTick Sample.w_both Sample.cfg (Some Sample.ip))
   = [AskIp]) /\
  (noop (Some Sample.ip)
     (Cdu.onTick Sample.w_both Sample.cfg (Some Sample.ip)) /\
   events (Cdu.onTick Sample.w_both Sample.cfg (Some Sample.ip)) = [AskIp]).
Proof.
  split; [reflexivity|].
  apply (unchanged_address_is_noop Sample.w_both Sample.cfg Sample.ip).
  reflexivity.
Defined.

(** ** C2: the cache is written first *)

(** C2.  In a pass of either file that sees an address other than the cached
    one, the cache is set to the new address right after the address is
    read, before the zone request and so before every request to the
    provider, and it is not written again.  Hence a pass that fails during
    zone resolution has sent no update and leaves the new address in the
    cache, and any later pass that reads the same address from that cache is
    a no-op: the update is not tried again. *)
Theorem cache_write_timing w cfg c ip :
  ipify w = IpText ip -> c <> Some ip ->
  let p := Part000.onTick w cfg c in
  let q := Cdu.onTick w cfg c in
  (cache_first cfg ip p /\ cache_first cfg ip q) /\
  (zone_failure cfg p ->
   patches (events p) = [] /\ cache_after p = Some ip /\
   forall w', ipify w' = IpText ip ->
              noop (Some ip) (Part000.onTick w' cfg (cache_after p))) /\
  (zone_failure cfg q ->
   patches (events q) = [] /\ cache_after q = Some ip /\
   forall w', ipify w' = IpText ip ->
              noop (Some ip) (Cdu.onTick w' cfg (cache_after q))).
Proof.
  intros Hip Hc p q.
  destruct (Part000_shape w cfg c ip Hip Hc) as (res & reqs & _ & Hp).
  destruct (Cdu_shape w cfg c ip Hip Hc) as (res' & reqs' & _ & Hq).
  subst p q. rewrite Hp, Hq. split; [split; apply shape_cache_first|].
  unfold zone_failure, patches. cbn [events cache_after calls].
  rewrite !(calls_map_Call (fun r => r)), !map_id.
  split; intros [_ Hz]; injection Hz as ->; (split; [reflexivity|]);
    (split; [reflexivity|]); intros w' Hw'.
  - now apply noop_unchanged_Part000.
  - now apply noop_unchanged_Cdu.
Qed.

Lemma cache_write_timing_witness :
  ipify Sample.w_zone_down = IpText Sample.ip /\
  None <> Some Sample.ip /\
  zone_failure Sample.cfg (Part000.onTick Sample.w_zone_down Sample.cfg None) /\
  zone_failure Sample.cfg (Cdu.onTick Sample.w_zone_down Sample.cfg None) /\
  let p := Part000.onTick Sample.w_zone_down Sample.cfg None in
  let q := Cdu.onTick Sample.w_zone_down Sample.cfg None in
  (cache_first Sample.cfg Sample.ip p /\ cache_first Sample.cfg Sample.ip q) /\
  (zone_failure Sample.cfg p ->
   patches (events p) = [] /\ cache_after p = Some Sample.ip /\
   forall w', ipify w' = IpText Sample.ip ->
              noop (Some Sample.ip)
                (Part000.onTick w' Sample.cfg (cache_after p))) /\
  (zone_failure Sample.cfg q ->
   patches (events q) = [] /\ cache_after q = Some Sample.ip /\
   forall w', ipify w' = IpText Sample.ip ->
              noop (Some Sample.ip) (Cdu.onTick w' Sample.cfg (cache_after q))).
Proof.
  split; [reflexivity|]. split; [discriminate|].
  split; [split; reflexivity|]. split; [split; reflexivity|].
  apply (cache_write_timing Sample.w_zone_down Sample.cfg None Sample.ip);
    [reflexivity|discriminate].
Defined.

(** ** A pass whose zone is found *)

Lemma truthy_Some z : z <> "" -> truthy (Some z) = true.
Proof.
  intros H. simpl. apply negb_true_iff, String.eqb_neq, H.
Qed.

Lemma Part000_resolved w cfg c ip z more :
  ipify w = IpText ip -> c <> Some ip ->
  cloudflare w (GetZone (zone cfg)) = Ok (z :: more) -> z <> "" ->
  Part000.onTick w cfg c =
  prepend
    (AskIp :: CacheSet ip :: Call (GetZone (zone cfg))
       :: map (fun recordName => Call (GetRecord z recordName))
            (recordNames cfg))
    match run_tasks
            (fun idMap recordName =>
               match lookup_task w (Some z) recordName with
               | inl e => inl e
               | inr id => inr (JsObject.set recordName id idMap)
               end)
            (settled (lookup_latency w) (recordNames cfg))
            JsObject.empty with
    | inl e => mkRun (inl e) (Some ip) []
    | inr idMap =>
        match find (fun recordName =>
                      negb (truthy (JsObject.get recordName idMap)))
                   (recordNames cfg) with
        | Some recordName =>
            mkRun (inl (RecordDoesntExist recordName)) (Some ip) []
        | None =>
            mkRun (match run_tasks
                           (fun _ recordId =>
                              update_task w (Some z) ip recordId)
                           (settled (update_latency w)
                              (JsObject.values idMap)) tt with
                   | inl e => inl e
                   | inr _ => inr Updated
                   end)
                  (Some ip)
                  (map (fun recordId =>
                          Call (PatchRecord z (tpl recordId) ip))
                       (JsObject.values idMap))
        end
    end.
Proof.
  intros Hip Hc Hz Hne.
  rewrite Part000_onTick_run, Hip, (strict_eq_false _ _ Hc), Hz.
  cbn [hd_error]. rewrite (truthy_Some _ Hne). cbn [negb].
  rewrite Part000_records_run. reflexivity.
Qed.

Lemma Cdu_resolved w cfg c ip ids :
  ipify w = IpText ip -> c <> Some ip ->
  cloudflare w (GetZone (zone cfg)) = Ok ids ->
  Cdu.onTick w cfg c =
  prepend
    (AskIp :: CacheSet ip :: Call (GetZone (zone cfg))
       :: map (fun recordName =>
                 Call (GetRecord (tpl (hd_error ids)) recordName))
            (recordNames cfg))
    match Cdu.promise_all
            (completion_order (lookup_latency w) (length (recordNames cfg)))
            (map (lookup_task w (hd_error ids)) (recordNames cfg)) with
    | inl e => mkRun (inl e) (Some ip) []
    | inr recordIds =>
        mkRun (match run_tasks
                       (fun _ recordId =>
                          update_task w (hd_error ids) ip recordId)
                       (settled (update_latency w) recordIds) tt with
               | inl e => inl e
               | inr _ => inr Updated
               end)
              (Some ip)
              (map (fun recordId =>
                      Call (PatchRecord (tpl (hd_error ids))
                              (tpl recordId) ip))
                   recordIds)
    end.
Proof.
  intros Hip Hc Hz.
  rewrite Cdu_onTick_run, Hip, (strict_eq_false _ _ Hc), Hz. reflexivity.
Qed.

Lemma calls_head ip zn (f : string -> Request) names rest :
  calls (AskIp :: CacheSet ip :: Call (GetZone zn)
           :: map (fun n => Call (f n)) names ++ rest) =
  GetZone zn :: map f names ++ calls rest.
Proof. cbn [calls]. now rewrite calls_app, calls_map_Call. Qed.

(** ** C7: zone resolution *)

(** What holds of zone resolution.  [getZoneId], the same in both files,
    sends one request; in a pass of either file that sees a new address
    that request is the only zone request of the pass.  When the provider
    answers with a non-success status the pass fails with [failed to find
    zone], raised by [getZoneId], and nothing else is asked.  When it
    answers with no matching zone [getZoneId] returns [undefined], and the
    pass of part_000 fails with [doesn't exist] and asks nothing else.
    Otherwise the id of the first zone of the answer is the one used:
    every record lookup of the pass is made in that zone, and whatever
    follows the lookups is an update in that zone.  (The id of a zone is a
    non-empty string.) *)
Theorem zone_resolution w cfg c ip :
  ipify w = IpText ip -> c <> Some ip ->
  let p := Part000.onTick w cfg c in
  let q := Cdu.onTick w cfg c in
  events (getZoneId w (zone cfg) (Some ip)) = [Call (GetZone (zone cfg))] /\
  filter is_zone (calls (events p)) = [GetZone (zone cfg)] /\
  filter is_zone (calls (events q)) = [GetZone (zone cfg)] /\
  (cloudflare w (GetZone (zone cfg)) = Ok [] ->
   result (getZoneId w (zone cfg) (Some ip)) = inr None /\
   result p = inl (ZoneDoesntExist (zone cfg)) /\
   calls (events p) = [GetZone (zone cfg)]) /\
  (cloudflare w (GetZone (zone cfg)) = NotOk ->
   result (getZoneId w (zone cfg) (Some ip))
   = inl (FailedToFindZone (zone cfg)) /\
   (result p = inl (FailedToFindZone (zone cfg)) /\
    calls (events p) = [GetZone (zone cfg)]) /\
   (result q = inl (FailedToFindZone (zone cfg)) /\
    calls (events q) = [GetZone (zone cfg)])) /\
  (forall z more,
      cloudflare w (GetZone (zone cfg)) = Ok (z :: more) -> z <> "" ->
      result (getZoneId w (zone cfg) (Some ip)) = inr (Some z) /\
      (exists rest,
          calls (events p) =
          GetZone (zone cfg) :: map (GetRecord z) (recordNames cfg) ++ rest /\
          Forall (fun r => exists id, r = PatchRecord z id ip) rest) /\
      (exists rest,
          calls (events q) =
          GetZone (zone cfg) :: map (GetRecord z) (recordNames cfg) ++ rest /\
          Forall (fun r => exists id, r = PatchRecord z id ip) rest)).
Proof.
  intros Hip Hc p q. subst p q.
  split; [now rewrite getZoneId_run|].
  split.
  { destruct (Part000_shape w cfg c ip Hip Hc) as (res & reqs & Hf & ->).
    cbn [events calls map]. rewrite (calls_map_Call (fun r => r)), map_id.
    cbn [filter is_zone]. now rewrite Hf. }
  split.
  { destruct (Cdu_shape w cfg c ip Hip Hc) as (res & reqs & Hf & ->).
    cbn [events calls map]. rewrite (calls_map_Call (fun r => r)), map_id.
    cbn [filter is_zone]. now rewrite Hf. }
  split.
  { intros Hz. rewrite getZoneId_run, Hz.
    rewrite Part000_onTick_run, Hip, (strict_eq_false _ _ Hc), Hz.
    now repeat split. }
  split.
  { intros Hz. rewrite getZoneId_run, Hz.
    rewrite Part000_onTick_run, Cdu_onTick_run, Hip,
      (strict_eq_false _ _ Hc), Hz.
    now repeat split. }
  intros z more Hz Hne. rewrite getZoneId_run, Hz.
  split; [reflexivity|].
  assert (Hall : forall ids : list JsVal,
             Forall (fun r => exists id, r = PatchRecord z id ip)
                    (map (fun recordId => PatchRecord z (tpl recordId) ip)
                         ids)).
  { intros ids. apply Forall_forall. intros r Hr. apply in_map_iff in Hr.
    destruct Hr as (id & <- & _). eauto. }
  split.
  - rewrite (Part000_resolved w cfg c ip z more Hip Hc Hz Hne).
    unfold prepend. cbn [events].
    destruct (run_tasks _ _ _) as [e|idMap]; cbn [events app].
    + exists []. rewrite (calls_head ip (zone cfg) (GetRecord z)). now split.
    + destruct (find _ _); cbn [events app].
      * exists []. rewrite (calls_head ip (zone cfg) (GetRecord z)).
        now split.
      * eexists. rewrite (calls_head ip (zone cfg) (GetRecord z)),
          calls_map_Call.
        split; [reflexivity|apply Hall].
  - rewrite (Cdu_resolved w cfg c ip (z :: more) Hip Hc Hz).
    unfold prepend. cbn [events hd_error tpl].
    destruct (Cdu.promise_all _ _) as [e|recordIds]; cbn [events app].
    + exists []. rewrite (calls_head ip (zone cfg) (GetRecord z)). now split.
    + eexists. rewrite (calls_head ip (zone cfg) (GetRecord z)),
        calls_map_Call.
      split; [reflexivity|apply Hall].
Qed.

Lemma zone_resolution_witness :
  ipify Sample.w_both = IpText Sample.ip /\
  None <> Some Sample.ip /\
  cloudflare Sample.w_both (GetZone (zone Sample.cfg)) = Ok ["Z1"] /\
  let w := Sample.w_both in
  let cfg := Sample.cfg in
  let ip := Sample.ip in
  let p := Part000.onTick w cfg None in
  let q := Cdu.onTick w cfg None in
  events (getZoneId w (zone cfg) (Some ip)) = [Call (GetZone (zone cfg))] /\
  filter is_zone (calls (events p)) = [GetZone (zone cfg)] /\
  filter is_zone (calls (events q)) = [GetZone (zone cfg)] /\
  (cloudflare w (GetZone (zone cfg)) = Ok [] ->
   result (getZoneId w (zone cfg) (Some ip)) = inr None /\
   result p = inl (ZoneDoesntExist (zone cfg)) /\
   calls (events p) = [GetZone (zone cfg)]) /\
  (cloudflare w (GetZone (zone cfg)) = NotOk ->
   result (getZoneId w (zone cfg) (Some ip))
   = inl (FailedToFindZone (zone cfg)) /\
   (result p = inl (FailedToFindZone (zone cfg)) /\
    calls (events p) = [GetZone (zone cfg)]) /\
   (result q = inl (FailedToFindZone (zone cfg)) /\
    calls (events q) = [GetZone (zone cfg)])) /\
  (forall z more,
      cloudflare w (GetZone (zone cfg)) = Ok (z :: more) -> z <> "" ->
      result (getZoneId w (zone cfg) (Some ip)) = inr (Some z) /\
      (exists rest,
          calls (events p) =
          GetZone (zone cfg) :: map (GetRecord z) (recordNames cfg) ++ rest /\
          Forall (fun r => exists id, r = PatchRecord z id ip) rest) /\
      (exists rest,
          calls (events q) =
          GetZone (zone cfg) :: map (GetRecord z) (recordNames cfg) ++ rest /\
          Forall (fun r => exists id, r = PatchRecord z id ip) rest)).
Proof.
  split; [reflexivity|]. split; [discriminate|]. split; [reflexivity|].
  apply (zone_resolution Sample.w_both Sample.cfg None Sample.ip);
    [reflexivity|discriminate].
Defined.

(** C7.  The pass of src/cdu.ts does not fail when the provider reports
    no matching zone.  With a provider that has no zone [example.com],
    [getZoneId] returns [undefined] in both files; the pass of part_000
    then fails with [example.com doesn't exist] after the zone request,
    while the pass of src/cdu.ts goes on with the zone id [undefined]: it
    looks the records up and updates them in the zone [undefined], and
    ends without an error. *)
Theorem cdu_goes_on_without_zone :
  cloudflare Sample.w_no_zone (GetZone "example.com") = Ok [] /\
  result (getZoneId Sample.w_no_zone "example.com" (Some Sample.ip))
  = inr None /\
  Part000.onTick Sample.w_no_zone Sample.cfg None =
  mkRun (inl (ZoneDoesntExist "example.com")) (Some Sample.ip)
        [AskIp; CacheSet Sample.ip; Call (GetZone "example.com")] /\
  Cdu.onTick Sample.w_no_zone Sample.cfg None =
  mkRun (inr Updated) (Some Sample.ip)
        [AskIp; CacheSet Sample.ip; Call (GetZone "example.com");
         Call (GetRecord "undefined" "a.example.com");
         Call (GetRecord "undefined" "b.example.com");
         Call (PatchRecord "undefined" "RA" Sample.ip);
         Call (PatchRecord "undefined" "RB" Sample.ip)].
Proof. repeat split; vm_compute; reflexivity. Qed.

(** ** Record resolution that completes *)

Lemma lookup_task_ok w z n :
  lookup_ok w z n = true ->
  lookup_task w (Some z) n = inr (record_id w z n).
Proof.
  unfold lookup_ok, lookup_task, record_id. cbn [tpl].
  now destruct (cloudflare w (GetRecord z n)).
Qed.

Lemma lookup_task_inr w z n id :
  lookup_task w (Some z) n = inr id ->
  lookup_ok w z n = true /\ id = record_id w z n.
Proof.
  unfold lookup_ok, lookup_task, record_id. cbn [tpl].
  destruct (cloudflare w (GetRecord z n)); try discriminate.
  intros H. injection H as <-. now split.
Qed.

Lemma lookup_task_inl w z n e :
  lookup_task w (Some z) n = inl e ->
  lookup_ok w z n = false /\
  (cloudflare w (GetRecord z n) = NotOk /\ e = FailedToFindRecord n \/
   exists reason, cloudflare w (GetRecord z n) = NetworkFailure reason /\
                  e = FetchError reason).
Proof.
  unfold lookup_ok, lookup_task. cbn [tpl].
  destruct (cloudflare w (GetRecord z n)) as [reason| |ids]; try discriminate;
    intros H; injection H as <-; split; eauto.
Qed.

Section Lookups.

Variable w : World.
Variable z : string.
Variable names : list string.

Let step (idMap : JsObject.t) (recordName : string) :=
  match lookup_task w (Some z) recordName with
  | inl e => inl e
  | inr id => inr (JsObject.set recordName id idMap)
  end.

Lemma lookups_ok :
  (forall n, In n names -> lookup_ok w z n = true) ->
  run_tasks step (settled (lookup_latency w) names) JsObject.empty =
  inr (written (record_id w z) (settled (lookup_latency w) names)
         JsObject.empty).
Proof.
  intros H.
  apply (run_tasks_ok (lookup_task w (Some z))
           (fun idMap n id => JsObject.set n id idMap) (record_id w z)).
  intros n Hn. apply lookup_task_ok, H. now apply settled_In in Hn.
Qed.

Lemma lookups_complete idMap :
  run_tasks step (settled (lookup_latency w) names) JsObject.empty
  = inr idMap ->
  (forall n, In n names -> lookup_ok w z n = true) /\
  idMap = written (record_id w z) (settled (lookup_latency w) names)
            JsObject.empty.
Proof.
  intros H.
  assert (Hok : forall n, In n names -> lookup_ok w z n = true).
  { intros n Hn.
    destruct (run_tasks_inr (lookup_task w (Some z))
                (fun idMap n id => JsObject.set n id idMap) _ _ _ H n)
      as [id Hid]; [now apply settled_In|].
    now apply lookup_task_inr in Hid. }
  split; [exact Hok|].
  rewrite (lookups_ok Hok) in H. now injection H.
Qed.

(** What the object built by the lookups holds. *)
Lemma idMap_get n :
  In n names ->
  JsObject.get n (written (record_id w z)
                    (settled (lookup_latency w) names) JsObject.empty)
  = record_id w z n.
Proof. intros Hn. apply written_get. now apply settled_In. Qed.

Lemma idMap_keys n :
  In n (JsObject.keys (written (record_id w z)
                         (settled (lookup_latency w) names) JsObject.empty))
  <-> In n names.
Proof.
  rewrite written_keys, settled_In. simpl. tauto.
Qed.

Lemma idMap_length :
  length (written (record_id w z)
            (settled (lookup_latency w) names) JsObject.empty)
  = length (nodup string_dec names).
Proof.
  rewrite written_length.
  apply Permutation_length, NoDup_Permutation; try apply NoDup_nodup.
  intros n. now rewrite !nodup_In, settled_In.
Qed.

End Lookups.

Lemma find_first {A} (f : A -> bool) l :
  (exists x, In x l /\ f x = true) ->
  exists pre y post,
    l = pre ++ y :: post /\ (forall m, In m pre -> f m = false) /\
    f y = true /\ find f l = Some y.
Proof.
  induction l as [|a l IH]; intros (x & Hx & Hf); [easy|].
  simpl. destruct (f a) eqn:Ea.
  - exists [], a, l. now repeat split.
  - destruct Hx as [->|Hx]; [congruence|].
    destruct IH as (pre & y & post & -> & Hpre & Hy & Hfind); [eauto|].
    exists (a :: pre), y, post. repeat split; try easy.
    intros m [<-|Hm]; auto.
Qed.

(** ** C1: the validation gate *)

(** In part_000: when record resolution completes and some configured name
    has no id in the mapping, the pass fails with [doesn't exist] for the
    first such name in configured order, having sent the zone request and
    the lookups only: no update, not even for the names that have an id. *)
Lemma Part000_validation_gate w cfg c ip z more idMap n :
  ipify w = IpText ip -> c <> Some ip ->
  cloudflare w (GetZone (zone cfg)) = Ok (z :: more) -> z <> "" ->
  result (Part000.getRecordIds w (Some z) (recordNames cfg) (Some ip))
  = inr idMap ->
  In n (recordNames cfg) -> truthy (JsObject.get n idMap) = false ->
  let r := Part000.onTick w cfg c in
  exists pre missing post,
    recordNames cfg = pre ++ missing :: post /\
    (forall m, In m pre -> truthy (JsObject.get m idMap) = true) /\
    truthy (JsObject.get missing idMap) = false /\
    result r = inl (RecordDoesntExist missing) /\
    patches (events r) = [] /\
    calls (events r) =
    GetZone (zone cfg) :: map (GetRecord z) (recordNames cfg).
Proof.
  intros Hip Hc Hz Hne Hids Hn Hfalsy r. subst r.
  rewrite Part000_getRecordIds_run in Hids. cbn [result] in Hids.
  destruct (find_first
              (fun recordName =>
                 negb (truthy (JsObject.get recordName idMap)))
              (recordNames cfg))
    as (pre & missing & post & Hsplit & Hpre & Hmiss & Hfind).
  { exists n. split; [easy|]. now rewrite Hfalsy. }
  exists pre, missing, post. split; [easy|].
  split; [intros m Hm; now apply negb_false_iff, Hpre|].
  split; [now apply negb_true_iff|].
  rewrite (Part000_resolved w cfg c ip z more Hip Hc Hz Hne), Hids, Hfind.
  unfold prepend, patches. cbn [result events app].
  rewrite (calls_head ip (zone cfg) (GetRecord z)). cbn [calls].
  rewrite app_nil_r. cbn [filter is_patch].
  now rewrite filter_map_none.
Qed.

(** C1.  The pass of src/cdu.ts has no such gate.  With the records
    [a.example.com,b.example.com] configured and a provider that has
    [a.example.com] only, record resolution completes with no id for
    [b.example.com]; the pass of part_000 fails with [b.example.com doesn't
    exist] and sends no update, while the pass of src/cdu.ts sends two
    updates, one for the id of [a.example.com] and one for the record id
    [undefined], and ends without an error. *)
Theorem cdu_updates_without_validation :
  Part000.onTick Sample.w_only_a Sample.cfg None =
  mkRun (inl (RecordDoesntExist "b.example.com")) (Some Sample.ip)
        [AskIp; CacheSet Sample.ip; Call (GetZone "example.com");
         Call (GetRecord "Z1" "a.example.com");
         Call (GetRecord "Z1" "b.example.com")] /\
  result (Cdu.getRecordIds Sample.w_only_a (Some "Z1")
            (recordNames Sample.cfg) (Some Sample.ip))
  = inr [Some "RA"; None] /\
  Cdu.onTick Sample.w_only_a Sample.cfg None =
  mkRun (inr Updated) (Some Sample.ip)
        [AskIp; CacheSet Sample.ip; Call (GetZone "example.com");
         Call (GetRecord "Z1" "a.example.com");
         Call (GetRecord "Z1" "b.example.com");
         Call (PatchRecord "Z1" "RA" Sample.ip);
         Call (PatchRecord "Z1" "undefined" Sample.ip)].
Proof. repeat split; vm_compute; reflexivity. Qed.

(** ** The update step *)

Section Updates.

Variable w : World.
Variable zoneId : JsVal.
Variable ip : string.

Let step (_ : unit) (recordId : JsVal) := update_task w zoneId ip recordId.

Let step' (_ : unit) (recordId : JsVal) : Error + unit :=
  match update_task w zoneId ip recordId with
  | inl e => inl e
  | inr _ => inr tt
  end.

Lemma update_step_form l :
  run_tasks step l tt = run_tasks step' l tt.
Proof.
  apply run_tasks_ext. intros [] t. unfold step, step'.
  now destruct (update_task w zoneId ip t) as [e|[]].
Qed.

Lemma updates_ok l :
  (forall id, In id l -> update_task w zoneId ip id = inr tt) ->
  run_tasks step l tt = inr tt.
Proof.
  intros H. rewrite update_step_form.
  etransitivity;
    [exact (run_tasks_ok (update_task w zoneId ip) (fun _ _ _ => tt)
              (fun _ => tt) l tt H)|].
  clear. induction l; simpl; auto.
Qed.

(** The error of the update step is that of the first update, in the
    order in which they settle, that fails. *)
Lemma updates_first l :
  (exists id, In id l /\ exists e, update_task w zoneId ip id = inl e) ->
  exists pre id post e,
    l = pre ++ id :: post /\
    (forall u, In u pre -> update_task w zoneId ip u = inr tt) /\
    update_task w zoneId ip id = inl e /\
    run_tasks step l tt = inl e.
Proof.
  intros H. rewrite update_step_form.
  destruct (run_tasks_first (update_task w zoneId ip) (fun _ _ _ => tt)
              l tt H) as (pre & id & post & e & Hl & Hpre & Hid & Hrun).
  exists pre, id, post, e. repeat split; try easy.
  intros u Hu. destruct (Hpre u Hu) as [[] Hx]. exact Hx.
Qed.

Lemma updates_inr l :
  run_tasks step l tt = inr tt ->
  forall id, In id l -> update_task w zoneId ip id = inr tt.
Proof.
  rewrite update_step_form. intros H id Hid.
  destruct (run_tasks_inr (update_task w zoneId ip) (fun _ _ _ => tt)
              l tt tt H id Hid) as [[] Hx].
  exact Hx.
Qed.

End Updates.

Lemma patches_pass {A} ip zn z names (f : A -> Request) (ids : list A) :
  (forall a, is_patch (f a) = true) ->
  patches (AskIp :: CacheSet ip :: Call (GetZone zn)
             :: map (fun n => Call (GetRecord z n)) names
             ++ map (fun a => Call (f a)) ids) =
  map f ids.
Proof.
  intros Hf. unfold patches.
  rewrite (calls_head ip zn (GetRecord z)), calls_map_Call.
  cbn [filter is_patch]. rewrite filter_app, filter_map_none by easy.
  now rewrite filter_map_all.
Qed.

(** ** part_000: the passes that reach the update step *)

Section Part000Update.

Variable w : World.
Variable cfg : Config.

(** The object record resolution returns when it completes. *)
Let idMap z :=
  written (record_id w z) (settled (lookup_latency w) (recordNames cfg))
          JsObject.empty.

Lemma find_none_iff {A} (f : A -> bool) l :
  find f l = None <-> forall x, In x l -> f x = false.
Proof.
  split; [apply find_none|].
  induction l as [|a l IH]; intros H; [reflexivity|].
  simpl. rewrite (H a (or_introl eq_refl)). apply IH.
  intros x Hx. apply H. now right.
Qed.

(** Zone found, every lookup successful and matched: the pass sends its
    updates, one per value of the object. *)
Lemma Part000_update_reached c ip z more :
  ipify w = IpText ip -> c <> Some ip ->
  cloudflare w (GetZone (zone cfg)) = Ok (z :: more) -> z <> "" ->
  (forall n, In n (recordNames cfg) ->
             lookup_ok w z n = true /\ truthy (record_id w z n) = true) ->
  Part000.onTick w cfg c =
  mkRun (match run_tasks
                 (fun _ recordId => update_task w (Some z) ip recordId)
                 (settled (update_latency w) (JsObject.values (idMap z)))
                 tt with
         | inl e => inl e
         | inr _ => inr Updated
         end)
        (Some ip)
        (AskIp :: CacheSet ip :: Call (GetZone (zone cfg))
           :: map (fun n => Call (GetRecord z n)) (recordNames cfg)
           ++ map (fun id => Call (PatchRecord z (tpl id) ip))
                (JsObject.values (idMap z))).
Proof.
  intros Hip Hc Hz Hne Hall.
  rewrite (Part000_resolved w cfg c ip z more Hip Hc Hz Hne).
  rewrite lookups_ok by (intros n Hn; now apply Hall).
  fold (idMap z).
  assert (Hfind : find (fun recordName =>
                          negb (truthy (JsObject.get recordName (idMap z))))
                       (recordNames cfg) = None).
  { apply find_none_iff. intros n Hn. unfold idMap.
    rewrite idMap_get by easy. apply negb_false_iff. now apply Hall. }
  rewrite Hfind. reflexivity.
Qed.

(** Conversely, a pass that sends an update is such a pass. *)
Lemma Part000_update_inv c :
  patches (events (Part000.onTick w cfg c)) <> [] ->
  exists ip z more,
    ipify w = IpText ip /\ c <> Some ip /\
    cloudflare w (GetZone (zone cfg)) = Ok (z :: more) /\ z <> "" /\
    (forall n, In n (recordNames cfg) ->
               lookup_ok w z n = true /\ truthy (record_id w z n) = true).
Proof.
  rewrite Part000_onTick_run.
  destruct (ipify w) as [reason|ip] eqn:Hip; [easy|].
  destruct (strict_eq c ip) eqn:Hc; [easy|].
  destruct (cloudflare w (GetZone (zone cfg))) as [reason| |ids] eqn:Hz;
    [easy|easy|].
  destruct (truthy (hd_error ids)) eqn:Ht; cbn [negb]; [|easy].
  destruct ids as [|z more]; [discriminate|]. cbn [hd_error] in *.
  assert (Hne : z <> "").
  { simpl in Ht. apply negb_true_iff in Ht. now apply String.eqb_neq. }
  rewrite Part000_records_run.
  destruct (run_tasks _ _ _) as [e|o] eqn:Hrun.
  { unfold prepend, patches. cbn [events app].
    rewrite app_nil_r. cbn [calls]. rewrite calls_map_Call.
    cbn [filter is_patch]. now rewrite filter_map_none. }
  apply lookups_complete in Hrun. destruct Hrun as [Hok ->].
  destruct (find _ _) eqn:Hfind.
  { unfold prepend, patches. cbn [events app].
    rewrite app_nil_r. cbn [calls]. rewrite calls_map_Call.
    cbn [filter is_patch]. now rewrite filter_map_none. }
  intros _. exists ip, z, more. repeat split; try easy.
  - intros ->. simpl in Hc. now rewrite String.eqb_refl in Hc.
  - now apply Hok.
  - rewrite find_none_iff in Hfind. specialize (Hfind n H).
    rewrite idMap_get in Hfind by easy. now apply negb_false_iff.
Qed.

(** The values of the object are the ids of the configured names. *)
Lemma idMap_values z id :
  In id (JsObject.values (idMap z)) <->
  exists n, In n (recordNames cfg) /\ id = record_id w z n.
Proof.
  assert (Hiff : In id (JsObject.values (idMap z)) <->
                 In id (map snd (idMap z))).
  { split; apply Permutation_in;
      [|apply Permutation_sym]; apply JsObjectFacts.values_perm. }
  rewrite Hiff. unfold idMap. rewrite in_map_iff. split.
  - intros ([n x] & <- & Hin). exists n. split.
    + apply (idMap_keys w z (recordNames cfg) n).
      apply in_map_iff. now exists (n, x).
    + destruct (written_entries _ _ _ _ _ Hin) as [->|[]]. reflexivity.
  - intros (n & Hn & ->).
    apply (idMap_keys w z (recordNames cfg) n) in Hn.
    apply in_map_iff in Hn. destruct Hn as ([n' x] & <- & Hin).
    exists (n', x). split; [|easy].
    destruct (written_entries _ _ _ _ _ Hin) as [->|[]]. reflexivity.
Qed.

End Part000Update.

(** The updates of a pass of part_000 that sends any. *)
Lemma Part000_patches w cfg c :
  let r := Part000.onTick w cfg c in
  patches (events r) <> [] ->
  exists ip z more,
    ipify w = IpText ip /\ c <> Some ip /\
    cloudflare w (GetZone (zone cfg)) = Ok (z :: more) /\ z <> "" /\
    (forall n, In n (recordNames cfg) ->
               lookup_ok w z n = true /\ truthy (record_id w z n) = true) /\
    cache_after r = Some ip /\
    patches (events r) =
    map (fun id => PatchRecord z (tpl id) ip)
        (JsObject.values
           (written (record_id w z)
              (settled (lookup_latency w) (recordNames cfg))
              JsObject.empty)).
Proof.
  intros r H. subst r.
  destruct (Part000_update_inv w cfg c H)
    as (ip & z & more & Hip & Hc & Hz & Hne & Hall).
  exists ip, z, more. repeat split; try easy; try (now apply Hall).
  - now rewrite (Part000_update_reached w cfg c ip z more).
  - rewrite (Part000_update_reached w cfg c ip z more) by easy.
    cbn [events].
    now rewrite (patches_pass ip (zone cfg) z (recordNames cfg)
                   (fun id => PatchRecord z (tpl id) ip)).
Qed.

(** ** C9: a record name configured more than once *)

(** C9.  In part_000, when the configured list has a name more than once,
    the mapping returned by record resolution has one entry per distinct
    name, so fewer entries than the list has names, although one lookup was
    sent per entry of the list; and a pass that reaches the update step
    sends one update per distinct name, fewer than the list has names. *)
Theorem repeated_names_collapse w cfg c z :
  ~ NoDup (recordNames cfg) ->
  (forall c' idMap,
      result (Part000.getRecordIds w (Some z) (recordNames cfg) c')
      = inr idMap ->
      NoDup (JsObject.keys idMap) /\
      (forall n, In n (JsObject.keys idMap) <-> In n (recordNames cfg)) /\
      length idMap = length (nodup string_dec (recordNames cfg)) /\
      length idMap < length (recordNames cfg)) /\
  (forall c',
      calls (events (Part000.getRecordIds w (Some z) (recordNames cfg) c'))
      = map (GetRecord z) (recordNames cfg)) /\
  (let r := Part000.onTick w cfg c in
   patches (events r) <> [] ->
   length (patches (events r))
   = length (nodup string_dec (recordNames cfg)) /\
   length (patches (events r)) < length (recordNames cfg)).
Proof.
  intros Hdup. pose proof (nodup_shorter _ Hdup) as Hlt.
  split; [|split].
  - intros c' idMap H. rewrite Part000_getRecordIds_run in H.
    cbn [result] in H. apply lookups_complete in H. destruct H as [_ ->].
    split; [apply written_NoDup; constructor|].
    split; [apply idMap_keys|].
    rewrite idMap_length. now split.
  - intros c'. rewrite Part000_getRecordIds_run. cbn [events tpl].
    apply calls_map_Call.
  - intros r H. subst r.
    destruct (Part000_patches w cfg c H)
      as (ip & z' & more & _ & _ & _ & _ & _ & _ & ->).
    rewrite length_map, JsObjectFacts.values_length, idMap_length.
    now split.
Qed.

Lemma repeated_names_collapse_witness :
  ~ NoDup (recordNames Sample.cfg_twice) /\
  result (Part000.getRecordIds Sample.w_both (Some "Z1")
            (recordNames Sample.cfg_twice) None)
  = inr [("a.example.com", Some "RA")] /\
  patches (events (Part000.onTick Sample.w_both Sample.cfg_twice None))
  = [PatchRecord "Z1" "RA" Sample.ip] /\
  let w := Sample.w_both in
  let cfg := Sample.cfg_twice in
  (forall c' idMap,
      result (Part000.getRecordIds w (Some "Z1") (recordNames cfg) c')
      = inr idMap ->
      NoDup (JsObject.keys idMap) /\
      (forall n, In n (JsObject.keys idMap) <-> In n (recordNames cfg)) /\
      length idMap = length (nodup string_dec (recordNames cfg)) /\
      length idMap < length (recordNames cfg)) /\
  (forall c',
      calls (events (Part000.getRecordIds w (Some "Z1") (recordNames cfg) c'))
      = map (GetRecord "Z1") (recordNames cfg)) /\
  (let r := Part000.onTick w cfg None in
   patches (events r) <> [] ->
   length (patches (events r))
   = length (nodup string_dec (recordNames cfg)) /\
   length (patches (events r)) < length (recordNames cfg)).
Proof.
  assert (Hdup : ~ NoDup (recordNames Sample.cfg_twice)).
  { intros H. apply NoDup_cons_iff in H. apply (proj1 H). now left. }
  split; [exact Hdup|]. split; [reflexivity|]. split; [reflexivity|].
  apply (repeated_names_collapse Sample.w_both Sample.cfg_twice None "Z1").
  exact Hdup.
Defined.

(** ** C8: what gets updated *)

(** C8.  In a pass of part_000 that reaches the update step, every
    configured record name has an id and an update is sent for it; every
    update that is sent is for the id of a configured name; there are as
    many updates as distinct configured names; and every update carries the
    address just read, which is also the one put in the cache. *)
Theorem updates_cover_configured_names w cfg c :
  let r := Part000.onTick w cfg c in
  patches (events r) <> [] ->
  exists ip z,
    ipify w = IpText ip /\ cache_after r = Some ip /\
    (forall n, In n (recordNames cfg) ->
       truthy (record_id w z n) = true /\
       In (PatchRecord z (tpl (record_id w z n)) ip) (patches (events r))) /\
    (forall q, In q (patches (events r)) ->
       exists n, In n (recordNames cfg) /\
                 q = PatchRecord z (tpl (record_id w z n)) ip) /\
    length (patches (events r))
    = length (nodup string_dec (recordNames cfg)).
Proof.
  intros r H. subst r.
  destruct (Part000_patches w cfg c H)
    as (ip & z & more & Hip & _ & _ & _ & Hall & Hcache & Hp).
  exists ip, z. rewrite Hp.
  split; [easy|]. split; [easy|]. split; [|split].
  - intros n Hn. split; [now apply Hall|].
    apply in_map_iff. exists (record_id w z n). split; [easy|].
    apply idMap_values. eauto.
  - intros q Hq. apply in_map_iff in Hq. destruct Hq as (id & <- & Hid).
    apply idMap_values in Hid. destruct Hid as (n & Hn & ->). eauto.
  - now rewrite length_map, JsObjectFacts.values_length, idMap_length.
Qed.

Lemma updates_cover_configured_names_witness :
  patches (events (Part000.onTick Sample.w_both Sample.cfg None)) <> [] /\
  let w := Sample.w_both in
  let cfg := Sample.cfg in
  let r := Part000.onTick w cfg None in
  exists ip z,
    ipify w = IpText ip /\ cache_after r = Some ip /\
    (forall n, In n (recordNames cfg) ->
       truthy (record_id w z n) = true /\
       In (PatchRecord z (tpl (record_id w z n)) ip) (patches (events r))) /\
    (forall q, In q (patches (events r)) ->
       exists n, In n (recordNames cfg) /\
                 q = PatchRecord z (tpl (record_id w z n)) ip) /\
    length (patches (events r))
    = length (nodup string_dec (recordNames cfg)).
Proof.
  split; [discriminate|].
  apply (updates_cover_configured_names Sample.w_both Sample.cfg None).
  discriminate.
Defined.

(** ** Lookups that fail *)

Section RunTasksAt.

Context {S T X : Type}.
Variable task : T -> Error + X.
Variable upd : S -> T -> X -> S.

Lemma run_tasks_at pre t post e s :
  (forall u, In u pre -> exists x, task u = inr x) ->
  task t = inl e ->
  run_tasks (fun s t => match task t with
                        | inl e => inl e
                        | inr x => inr (upd s t x)
                        end) (pre ++ t :: post) s = inl e.
Proof.
  revert s. induction pre as [|u pre IH]; intros s Hpre Ht; simpl.
  - now rewrite Ht.
  - destruct (Hpre u (or_introl eq_refl)) as [x ->].
    apply IH; [|easy]. intros v Hv. apply Hpre. now right.
Qed.

End RunTasksAt.

Lemma run_tasks_map {S T U} (f : U -> T) (step : S -> T -> Error + S) l s :
  run_tasks step (map f l) s = run_tasks (fun s u => step s (f u)) l s.
Proof.
  revert s. induction l as [|u l IH]; intros s; simpl; [easy|].
  destruct (step s (f u)); [easy|apply IH].
Qed.

Lemma promise_all_run {A} lat (f : string -> Error + A) names :
  Cdu.promise_all (completion_order lat (length names)) (map f names) =
  match run_tasks (fun (_ : unit) n =>
                     match f n with inl e => inl e | inr _ => inr tt end)
                  (settled lat names) tt with
  | inl e => inl e
  | inr _ =>
      inr (flat_map (fun t => match t with inl _ => [] | inr a => [a] end)
             (map f names))
  end.
Proof.
  unfold Cdu.promise_all, settled.
  now rewrite settle_run, pick_map, run_tasks_map.
Qed.

Section LookupOutcomes.

Variable w : World.
Variable z : string.
Variable names : list string.

Lemma lookup_task_fail n :
  lookup_ok w z n = false -> exists e, lookup_task w (Some z) n = inl e.
Proof.
  unfold lookup_ok, lookup_task. cbn [tpl].
  destruct (cloudflare w (GetRecord z n)); try discriminate; eauto.
Qed.

(** src/cdu.ts: the ids in the order of the names. *)
Lemma Cdu_lookups_ok :
  (forall n, In n names -> lookup_ok w z n = true) ->
  Cdu.promise_all (completion_order (lookup_latency w) (length names))
    (map (lookup_task w (Some z)) names)
  = inr (map (record_id w z) names).
Proof.
  intros H. rewrite promise_all_run.
  rewrite (run_tasks_ok (lookup_task w (Some z)) (fun _ _ _ => tt)
             (record_id w z))
    by (intros n Hn; apply lookup_task_ok, H; now apply settled_In in Hn).
  f_equal. clear -H. induction names as [|n l IH]; simpl; [easy|].
  rewrite (lookup_task_ok w z n) by (apply H; now left).
  simpl. f_equal. apply IH. intros m Hm. apply H. now right.
Qed.

(** In both files record resolution fails with the error of the lookup
    that is the first to fail in the order in which they settle. *)
Lemma lookups_first_failure :
  (exists n, In n names /\ lookup_ok w z n = false) ->
  exists pre n post e,
    settled (lookup_latency w) names = pre ++ n :: post /\
    (forall u, In u pre -> lookup_ok w z u = true) /\
    In n names /\
    lookup_task w (Some z) n = inl e /\
    run_tasks
      (fun idMap recordName =>
         match lookup_task w (Some z) recordName with
         | inl e => inl e
         | inr id => inr (JsObject.set recordName id idMap)
         end)
      (settled (lookup_latency w) names) JsObject.empty = inl e /\
    Cdu.promise_all (completion_order (lookup_latency w) (length names))
      (map (lookup_task w (Some z)) names) = inl e.
Proof.
  intros (n0 & Hn0 & Hfail).
  destruct (run_tasks_first (lookup_task w (Some z))
              (fun idMap n id => JsObject.set n id idMap)
              (settled (lookup_latency w) names) JsObject.empty)
    as (pre & n & post & e & Hl & Hpre & Hn & Hrun).
  { exists n0. split; [now apply settled_In|].
    now apply lookup_task_fail. }
  exists pre, n, post, e. split; [easy|]. split.
  { intros u Hu. destruct (Hpre u Hu) as [x Hx].
    now apply lookup_task_inr in Hx. }
  split.
  { apply (settled_In (lookup_latency w)). rewrite Hl.
    apply in_elt. }
  split; [easy|]. split; [easy|].
  rewrite promise_all_run, Hl.
  now rewrite (run_tasks_at (lookup_task w (Some z)) (fun _ _ _ => tt)
                 pre n post e tt Hpre Hn).
Qed.

End LookupOutcomes.

Lemma Cdu_update_reached w cfg c ip z more :
  ipify w = IpText ip -> c <> Some ip ->
  cloudflare w (GetZone (zone cfg)) = Ok (z :: more) ->
  (forall n, In n (recordNames cfg) -> lookup_ok w z n = true) ->
  Cdu.onTick w cfg c =
  mkRun (match run_tasks
                 (fun _ recordId => update_task w (Some z) ip recordId)
                 (settled (update_latency w)
                    (map (record_id w z) (recordNames cfg))) tt with
         | inl e => inl e
         | inr _ => inr Updated
         end)
        (Some ip)
        (AskIp :: CacheSet ip :: Call (GetZone (zone cfg))
           :: map (fun n => Call (GetRecord z n)) (recordNames cfg)
           ++ map (fun id => Call (PatchRecord z (tpl id) ip))
                (map (record_id w z) (recordNames cfg))).
Proof.
  intros Hip Hc Hz Hall.
  rewrite (Cdu_resolved w cfg c ip (z :: more) Hip Hc Hz).
  cbn [hd_error]. now rewrite Cdu_lookups_ok.
Qed.

(** A pass that gets as far as the lookups and has one of them fail. *)
Lemma lookup_failure_runs w cfg c ip z more :
  ipify w = IpText ip -> c <> Some ip ->
  cloudflare w (GetZone (zone cfg)) = Ok (z :: more) -> z <> "" ->
  (exists n, In n (recordNames cfg) /\ lookup_ok w z n = false) ->
  exists pre n post e,
    settled (lookup_latency w) (recordNames cfg) = pre ++ n :: post /\
    (forall u, In u pre -> lookup_ok w z u = true) /\
    In n (recordNames cfg) /\
    lookup_task w (Some z) n = inl e /\
    let evs := AskIp :: CacheSet ip :: Call (GetZone (zone cfg))
                 :: map (fun n => Call (GetRecord z n)) (recordNames cfg) in
    Part000.onTick w cfg c = mkRun (inl e) (Some ip) evs /\
    Cdu.onTick w cfg c = mkRun (inl e) (Some ip) evs.
Proof.
  intros Hip Hc Hz Hne Hfail.
  destruct (lookups_first_failure w z (recordNames cfg) Hfail)
    as (pre & n & post & e & Hl & Hpre & Hin & Hn & Hp & Hq).
  exists pre, n, post, e. repeat split; try easy.
  - rewrite (Part000_resolved w cfg c ip z more Hip Hc Hz Hne), Hp.
    unfold prepend. cbn [result cache_after events]. now rewrite app_nil_r.
  - rewrite (Cdu_resolved w cfg c ip (z :: more) Hip Hc Hz).
    cbn [hd_error]. rewrite Hq.
    unfold prepend. cbn [result cache_after events]. now rewrite app_nil_r.
Qed.

(** ** C6: a lookup that fails *)

(** C6, as stated, fails.  With [a.example.com] answered by a non-success
    status and [b.example.com] failing in the network and settling first,
    record resolution fails in both files with the rejection of [fetch] for
    [b.example.com], which the code passes on as it is: the error names
    neither record, although the lookup of [a.example.com] returned a
    non-success status. *)
Lemma lookup_failure_not_always_named :
  let w := Sample.w_lookups_fail in
  let names := recordNames Sample.cfg in
  In "a.example.com" names /\
  cloudflare w (GetRecord "Z1" "a.example.com") = NotOk /\
  result (Part000.getRecordIds w (Some "Z1") names (Some Sample.ip))
  = inl (FetchError "connection reset") /\
  result (Cdu.getRecordIds w (Some "Z1") names (Some Sample.ip))
  = inl (FetchError "connection reset") /\
  ~ (forall n, In n names ->
       lookup_ok w "Z1" n = false ->
       result (Part000.getRecordIds w (Some "Z1") names (Some Sample.ip))
       = inl (FailedToFindRecord n)).
Proof.
  intros w names.
  split; [now left|]. split; [reflexivity|].
  split; [reflexivity|]. split; [reflexivity|].
  intros H. specialize (H "a.example.com" (or_introl eq_refl) eq_refl).
  vm_compute in H. discriminate.
Qed.

(** C6, amended.  In a pass of either file that gets as far as the lookups,
    if any lookup returns a non-success status or fails in the network, the
    pass fails with the error of the first failing lookup in the order in
    which the lookups settle: [failed to find record] naming that record if
    it returned a non-success status, the rejection of [fetch] as it is if
    it failed in the network.  All the lookups have been sent, the ids the
    others may have found are not returned, and no update is sent. *)
Theorem lookup_failure_aborts w cfg c ip z more :
  ipify w = IpText ip -> c <> Some ip ->
  cloudflare w (GetZone (zone cfg)) = Ok (z :: more) -> z <> "" ->
  (exists n, In n (recordNames cfg) /\ lookup_ok w z n = false) ->
  exists pre n post e,
    settled (lookup_latency w) (recordNames cfg) = pre ++ n :: post /\
    (forall u, In u pre -> lookup_ok w z u = true) /\
    In n (recordNames cfg) /\
    (cloudflare w (GetRecord z n) = NotOk /\ e = FailedToFindRecord n \/
     exists reason, cloudflare w (GetRecord z n) = NetworkFailure reason /\
                    e = FetchError reason) /\
    (forall c',
        result (Part000.getRecordIds w (Some z) (recordNames cfg) c') = inl e /\
        result (Cdu.getRecordIds w (Some z) (recordNames cfg) c') = inl e) /\
    let p := Part000.onTick w cfg c in
    let q := Cdu.onTick w cfg c in
    (result p = inl e /\ patches (events p) = [] /\
     calls (events p) = GetZone (zone cfg) :: map (GetRecord z) (recordNames cfg))
    /\
    (result q = inl e /\ patches (events q) = [] /\
     calls (events q) = GetZone (zone cfg) :: map (GetRecord z) (recordNames cfg)).
Proof.
  intros Hip Hc Hz Hne Hfail.
  destruct (lookups_first_failure w z (recordNames cfg) Hfail)
    as (pre0 & n0 & post0 & e0 & Hl0 & _ & _ & Hn0 & Hp0 & Hq0).
  destruct (lookup_failure_runs w cfg c ip z more Hip Hc Hz Hne Hfail)
    as (pre & n & post & e & Hl & Hpre & Hin & Hn & Hp & Hq).
  exists pre, n, post, e. split; [easy|]. split; [easy|]. split; [easy|].
  split; [now apply lookup_task_inl in Hn|].
  assert (Hcalls : calls (AskIp :: CacheSet ip :: Call (GetZone (zone cfg))
                            :: map (fun n => Call (GetRecord z n))
                                 (recordNames cfg))
                   = GetZone (zone cfg) :: map (GetRecord z) (recordNames cfg)).
  { cbn [calls]. now rewrite calls_map_Call. }
  split.
  { intros c'. rewrite Part000_getRecordIds_run, Cdu_getRecordIds_run.
    cbn [result].
    assert (He : e = e0).
    { rewrite (Part000_resolved w cfg c ip z more Hip Hc Hz Hne), Hp0 in Hp.
      unfold prepend in Hp. cbn [result] in Hp. congruence. }
    subst e0. now split. }
  cbv zeta. rewrite Hp, Hq. unfold patches. cbn [result events].
  rewrite Hcalls. cbn [filter is_patch].
  rewrite filter_map_none by easy. now repeat split.
Qed.

Lemma lookup_failure_aborts_witness :
  ipify Sample.w_lookups_fail = IpText Sample.ip /\
  None <> Some Sample.ip /\
  cloudflare Sample.w_lookups_fail (GetZone (zone Sample.cfg)) = Ok ["Z1"] /\
  "Z1" <> "" /\
  (exists n, In n (recordNames Sample.cfg) /\
             lookup_ok Sample.w_lookups_fail "Z1" n = false) /\
  let w := Sample.w_lookups_fail in
  let cfg := Sample.cfg in
  let ip := Sample.ip in
  let z := "Z1" in
  exists pre n post e,
    settled (lookup_latency w) (recordNames cfg) = pre ++ n :: post /\
    (forall u, In u pre -> lookup_ok w z u = true) /\
    In n (recordNames cfg) /\
    (cloudflare w (GetRecord z n) = NotOk /\ e = FailedToFindRecord n \/
     exists reason, cloudflare w (GetRecord z n) = NetworkFailure reason /\
                    e = FetchError reason) /\
    (forall c',
        result (Part000.getRecordIds w (Some z) (recordNames cfg) c') = inl e /\
        result (Cdu.getRecordIds w (Some z) (recordNames cfg) c') = inl e) /\
    let p := Part000.onTick w cfg None in
    let q := Cdu.onTick w cfg None in
    (result p = inl e /\ patches (events p) = [] /\
     calls (events p) = GetZone (zone cfg) :: map (GetRecord z) (recordNames cfg))
    /\
    (result q = inl e /\ patches (events q) = [] /\
     calls (events q) = GetZone (zone cfg) :: map (GetRecord z) (recordNames cfg)).
Proof.
  assert (Hfail : exists n, In n (recordNames Sample.cfg) /\
                            lookup_ok Sample.w_lookups_fail "Z1" n = false).
  { exists "a.example.com". split; [now left|reflexivity]. }
  split; [reflexivity|]. split; [discriminate|]. split; [reflexivity|].
  split; [discriminate|]. split; [exact Hfail|].
  apply (lookup_failure_aborts Sample.w_lookups_fail Sample.cfg None
           Sample.ip "Z1" []);
    [reflexivity|discriminate|reflexivity|discriminate|exact Hfail].
Defined.

(** ** C4: an update that fails *)

Lemma update_task_Ok w z ip id b :
  cloudflare w (PatchRecord z (tpl id) ip) = Ok b ->
  update_task w (Some z) ip id = inr tt.
Proof. unfold update_task. cbn [tpl]. now intros ->. Qed.

Lemma JsVal_eq_dec (a b : JsVal) : {a = b} + {a <> b}.
Proof. decide equality. apply string_dec. Qed.

(** One update fails, every other id is accepted: whatever the order in
    which the updates settle, the error is that of the update that
    fails. *)
Lemma one_update_fails w z ip (rid : string -> JsVal) names l bad e :
  (forall id, In id l <-> exists n, In n names /\ id = rid n) ->
  In bad names ->
  update_task w (Some z) ip (rid bad) = inl e ->
  (forall n, In n names -> rid n <> rid bad ->
             update_ok w z (tpl (rid n)) ip = true) ->
  run_tasks (fun _ recordId => update_task w (Some z) ip recordId) l tt
  = inl e.
Proof.
  intros Hl Hbad Hfail Hothers.
  destruct (updates_first w (Some z) ip l)
    as (pre & id & post & e' & Hsplit & _ & Hid & Hrun).
  { exists (rid bad). split; [apply Hl; eauto|eauto]. }
  rewrite Hrun. f_equal.
  assert (Hin : In id l) by (rewrite Hsplit; apply in_elt).
  apply Hl in Hin. destruct Hin as (n & Hn & ->).
  destruct (JsVal_eq_dec (rid n) (rid bad)) as [Heq|Hneq].
  - rewrite Heq in Hid. congruence.
  - specialize (Hothers n Hn Hneq). unfold update_ok in Hothers.
    destruct (cloudflare w (PatchRecord z (tpl (rid n)) ip)) as [| |b] eqn:Hb;
      try discriminate.
    rewrite (update_task_Ok _ _ _ _ _ Hb) in Hid. discriminate.
Qed.

(** How an update that is not accepted fails. *)
Lemma update_task_refused w z ip id :
  update_ok w z (tpl id) ip = false ->
  exists e,
    update_task w (Some z) ip id = inl e /\
    (cloudflare w (PatchRecord z (tpl id) ip) = NotOk /\
     e = FailedToUpdate (tpl id) \/
     exists reason,
       cloudflare w (PatchRecord z (tpl id) ip) = NetworkFailure reason /\
       e = FetchError reason).
Proof.
  unfold update_ok, update_task. cbn [tpl].
  destruct (cloudflare w (PatchRecord z (tpl id) ip)) as [reason| |b];
    [eauto 6|eauto|discriminate].
Qed.

Lemma settled_values_In w cfg z id :
  In id (settled (update_latency w)
           (JsObject.values
              (written (record_id w z)
                 (settled (lookup_latency w) (recordNames cfg))
                 JsObject.empty))) <->
  exists n, In n (recordNames cfg) /\ id = record_id w z n.
Proof. rewrite settled_In. apply idMap_values. Qed.

Lemma settled_ids_In w cfg z id :
  In id (settled (update_latency w)
           (map (record_id w z) (recordNames cfg))) <->
  exists n, In n (recordNames cfg) /\ id = record_id w z n.
Proof.
  rewrite settled_In, in_map_iff. split; intros (n & H1 & H2); eauto.
Qed.

(** C4, as stated, fails.  With both records resolved, the update of the
    first one failing in the network and the update of the second one
    accepted, the pass of either file sends both updates and fails, but
    with the rejection of [fetch] passed on as it is: the failure does not
    name the record id whose update failed. *)
Lemma update_failure_not_always_named :
  let w := MoreSamples.w_update_unreachable in
  let p := Part000.onTick w Sample.cfg None in
  let q := Cdu.onTick w Sample.cfg None in
  update_ok w "Z1" "RA" Sample.ip = false /\
  update_ok w "Z1" "RB" Sample.ip = true /\
  patches (events p) = [PatchRecord "Z1" "RA" Sample.ip;
                        PatchRecord "Z1" "RB" Sample.ip] /\
  patches (events q) = [PatchRecord "Z1" "RA" Sample.ip;
                        PatchRecord "Z1" "RB" Sample.ip] /\
  result p = inl (FetchError "connection refused") /\
  result q = inl (FetchError "connection refused") /\
  result p <> inl (FailedToUpdate "RA") /\
  result q <> inl (FailedToUpdate "RA").
Proof.
  intros w p q. repeat split; try reflexivity;
    vm_compute; intros H; discriminate.
Qed.

(** C4, amended.  In a pass of either file that reaches the update step
    (the address is new, the zone is found, every configured name has an
    id), if the update of one record id fails and the update of every
    other id is accepted, the pass fails with the error of that update,
    whatever the order in which the updates settle: [failed to update DNS
    record] naming the record id when the provider answered with a
    non-success status, the error of the runtime passed on as it is when
    the update failed in the network.  An update has been sent for every
    configured name all the same, and nothing is sent after the updates:
    nothing is undone. *)
Theorem update_failure_surfaced w cfg c ip z more bad :
  ipify w = IpText ip -> c <> Some ip ->
  cloudflare w (GetZone (zone cfg)) = Ok (z :: more) -> z <> "" ->
  (forall n, In n (recordNames cfg) ->
             lookup_ok w z n = true /\ truthy (record_id w z n) = true) ->
  In bad (recordNames cfg) ->
  update_ok w z (tpl (record_id w z bad)) ip = false ->
  (forall n, In n (recordNames cfg) ->
             record_id w z n <> record_id w z bad ->
             update_ok w z (tpl (record_id w z n)) ip = true) ->
  let p := Part000.onTick w cfg c in
  let q := Cdu.onTick w cfg c in
  let sent (r : Run Outcome) :=
    (forall n, In n (recordNames cfg) ->
       In (PatchRecord z (tpl (record_id w z n)) ip) (patches (events r))) /\
    calls (events r) =
    GetZone (zone cfg) :: map (GetRecord z) (recordNames cfg)
      ++ patches (events r) in
  exists e,
    (cloudflare w (PatchRecord z (tpl (record_id w z bad)) ip) = NotOk /\
     e = FailedToUpdate (tpl (record_id w z bad)) \/
     exists reason,
       cloudflare w (PatchRecord z (tpl (record_id w z bad)) ip)
       = NetworkFailure reason /\
       e = FetchError reason) /\
    (result p = inl e /\ sent p) /\
    (result q = inl e /\ sent q).
Proof.
  intros Hip Hc Hz Hne Hall Hbad Hno Hothers p q sent. subst p q sent.
  cbv beta.
  destruct (update_task_refused w z ip _ Hno) as (e & He & Hkind).
  exists e. split; [exact Hkind|].
  rewrite (Part000_update_reached w cfg c ip z more Hip Hc Hz Hne Hall).
  rewrite (Cdu_update_reached w cfg c ip z more Hip Hc Hz)
    by (intros n Hn; now apply Hall).
  cbn [result events].
  rewrite !(patches_pass ip (zone cfg) z (recordNames cfg)
              (fun id => PatchRecord z (tpl id) ip)) by easy.
  rewrite !(calls_head ip (zone cfg) (GetRecord z)), !calls_map_Call.
  rewrite (one_update_fails w z ip (record_id w z) (recordNames cfg) _ bad e
             (settled_values_In w cfg z) Hbad He Hothers).
  rewrite (one_update_fails w z ip (record_id w z) (recordNames cfg) _ bad e
             (settled_ids_In w cfg z) Hbad He Hothers).
  repeat split.
  - intros n Hn. apply in_map_iff. exists (record_id w z n).
    split; [easy|]. apply idMap_values. eauto.
  - intros n Hn. apply in_map_iff. exists (record_id w z n).
    split; [easy|]. apply in_map_iff. eauto.
Qed.

Lemma update_failure_surfaced_witness :
  let w := Sample.w_update_fails in
  let cfg := Sample.cfg in
  let ip := Sample.ip in
  let z := "Z1" in
  let bad := "a.example.com" in
  ipify w = IpText ip /\ None <> Some ip /\
  cloudflare w (GetZone (zone cfg)) = Ok [z] /\ z <> "" /\
  (forall n, In n (recordNames cfg) ->
             lookup_ok w z n = true /\ truthy (record_id w z n) = true) /\
  In bad (recordNames cfg) /\
  update_ok w z (tpl (record_id w z bad)) ip = false /\
  (forall n, In n (recordNames cfg) ->
             record_id w z n <> record_id w z bad ->
             update_ok w z (tpl (record_id w z n)) ip = true) /\
  result (Part000.onTick w cfg None) = inl (FailedToUpdate "RA") /\
  let p := Part000.onTick w cfg None in
  let q := Cdu.onTick w cfg None in
  let sent (r : Run Outcome) :=
    (forall n, In n (recordNames cfg) ->
       In (PatchRecord z (tpl (record_id w z n)) ip) (patches (events r))) /\
    calls (events r) =
    GetZone (zone cfg) :: map (GetRecord z) (recordNames cfg)
      ++ patches (events r) in
  exists e,
    (cloudflare w (PatchRecord z (tpl (record_id w z bad)) ip) = NotOk /\
     e = FailedToUpdate (tpl (record_id w z bad)) \/
     exists reason,
       cloudflare w (PatchRecord z (tpl (record_id w z bad)) ip)
       = NetworkFailure reason /\
       e = FetchError reason) /\
    (result p = inl e /\ sent p) /\
    (result q = inl e /\ sent q).
Proof.
  intros w cfg ip z bad.
  assert (Hall : forall n, In n (recordNames cfg) ->
            lookup_ok w z n = true /\ truthy (record_id w z n) = true).
  { intros n [<-|[<-|[]]]; split; reflexivity. }
  assert (Hothers : forall n, In n (recordNames cfg) ->
            record_id w z n <> record_id w z bad ->
            update_ok w z (tpl (record_id w z n)) ip = true).
  { intros n [<-|[<-|[]]] Hneq; [now elim Hneq|]. reflexivity. }
  split; [reflexivity|]. split; [discriminate|]. split; [reflexivity|].
  split; [discriminate|]. split; [exact Hall|]. split; [now left|].
  split; [reflexivity|]. split; [exact Hothers|]. split; [reflexivity|].
  apply (update_failure_surfaced w cfg None ip z [] bad);
    [reflexivity|discriminate|reflexivity|discriminate|exact Hall|now left
    |reflexivity|exact Hothers].
Defined.

(** ** C5: one entry per name *)

(** C5, as stated, fails.  With the list [a.example.com,a.example.com], two
    lookups are sent and both succeed with a match, but the mapping that is
    returned has one entry, not two. *)
Lemma repeated_name_single_entry :
  let w := Sample.w_both in
  let names := recordNames Sample.cfg_twice in
  let r := Part000.getRecordIds w (Some "Z1") names None in
  length names = 2 /\
  (forall n, In n names ->
             lookup_ok w "Z1" n = true /\ truthy (record_id w "Z1" n) = true) /\
  calls (events r)
  = [GetRecord "Z1" "a.example.com"; GetRecord "Z1" "a.example.com"] /\
  result r = inr [("a.example.com", Some "RA")] /\
  ~ (exists idMap, result r = inr idMap /\ length idMap = length names).
Proof.
  intros w names r.
  split; [reflexivity|].
  split; [intros n [<-|[<-|[]]]; split; reflexivity|].
  split; [reflexivity|]. split; [reflexivity|].
  intros (idMap & H & Hlen). vm_compute in H. injection H as <-.
  discriminate.
Qed.

(** C5, amended.  For every list of N pairwise distinct record names,
    record resolution of part_000 sends exactly N lookups, one per name in
    the order of the list, and, when every lookup succeeds with a match,
    returns a mapping with exactly N entries, one per name, holding for each
    name the first id the provider gave for it; this for every world, so
    whatever the order in which the lookups settle. *)
Theorem resolution_one_entry_per_name w z names c :
  NoDup names ->
  let r := Part000.getRecordIds w (Some z) names c in
  calls (events r) = map (GetRecord z) names /\
  length (calls (events r)) = length names /\
  ((forall n, In n names ->
              lookup_ok w z n = true /\ truthy (record_id w z n) = true) ->
   exists idMap,
     result r = inr idMap /\
     length idMap = length names /\
     Permutation (JsObject.keys idMap) names /\
     forall n, In n names ->
               JsObject.get n idMap = record_id w z n /\
               truthy (JsObject.get n idMap) = true).
Proof.
  intros Hnd r. subst r. rewrite Part000_getRecordIds_run.
  cbn [events result tpl]. rewrite calls_map_Call, length_map.
  split; [easy|]. split; [easy|]. intros Hall.
  rewrite lookups_ok by (intros n Hn; now apply Hall).
  eexists. split; [reflexivity|].
  split; [now rewrite idMap_length, nodup_fixed_point|].
  split.
  - apply NoDup_Permutation; [apply written_NoDup; constructor|easy|].
    apply idMap_keys.
  - intros n Hn. rewrite idMap_get by easy. split; [easy|now apply Hall].
Qed.

Lemma resolution_one_entry_per_name_witness :
  let w := Sample.w_second_first in
  let names := recordNames Sample.cfg in
  NoDup names /\
  (forall n, In n names ->
             lookup_ok w "Z1" n = true /\ truthy (record_id w "Z1" n) = true) /\
  let r := Part000.getRecordIds w (Some "Z1") names None in
  calls (events r) = map (GetRecord "Z1") names /\
  length (calls (events r)) = length names /\
  ((forall n, In n names ->
              lookup_ok w "Z1" n = true /\ truthy (record_id w "Z1" n) = true) ->
   exists idMap,
     result r = inr idMap /\
     length idMap = length names /\
     Permutation (JsObject.keys idMap) names /\
     forall n, In n names ->
               JsObject.get n idMap = record_id w "Z1" n /\
               truthy (JsObject.get n idMap) = true).
Proof.
  intros w names.
  assert (Hnd : NoDup names).
  { repeat constructor; simpl; intuition discriminate. }
  split; [exact Hnd|].
  split; [intros n [<-|[<-|[]]]; split; reflexivity|].
  apply (resolution_one_entry_per_name w "Z1" names None Hnd).
Defined.

(** ** C10: the two files side by side *)

(** C10, as stated, fails, in four ways.  When the provider has no such
    zone, part_000 stops after the zone request while src/cdu.ts looks the
    records up in the zone [undefined], updates them there and ends without
    an error.  When the provider has no record for a configured name,
    part_000 stops after the lookups while src/cdu.ts sends the updates,
    one of them for the record id [undefined].  When a name is configured
    twice, part_000 sends one update and src/cdu.ts two.  When the lookup
    of the second name settles first, part_000 sends its updates in the
    order in which the lookups settled and src/cdu.ts in the order of the
    configuration. *)
Lemma versions_differ :
  (let p := Part000.onTick Sample.w_only_a Sample.cfg None in
   let q := Cdu.onTick Sample.w_only_a Sample.cfg None in
   result p = inl (RecordDoesntExist "b.example.com") /\
   patches (events p) = [] /\
   result q = inr Updated /\
   patches (events q) = [PatchRecord "Z1" "RA" Sample.ip;
                         PatchRecord "Z1" "undefined" Sample.ip]) /\
  (let p := Part000.onTick Sample.w_no_zone Sample.cfg None in
   let q := Cdu.onTick Sample.w_no_zone Sample.cfg None in
   result p = inl (ZoneDoesntExist "example.com") /\
   calls (events p) = [GetZone "example.com"] /\
   result q = inr Updated /\
   calls (events q) =
   [GetZone "example.com";
    GetRecord "undefined" "a.example.com";
    GetRecord "undefined" "b.example.com";
    PatchRecord "undefined" "RA" Sample.ip;
    PatchRecord "undefined" "RB" Sample.ip]) /\
  (let p := Part000.onTick Sample.w_both Sample.cfg_twice None in
   let q := Cdu.onTick Sample.w_both Sample.cfg_twice None in
   patches (events p) = [PatchRecord "Z1" "RA" Sample.ip] /\
   patches (events q) = [PatchRecord "Z1" "RA" Sample.ip;
                         PatchRecord "Z1" "RA" Sample.ip]) /\
  (let p := Part000.onTick Sample.w_second_first Sample.cfg None in
   let q := Cdu.onTick Sample.w_second_first Sample.cfg None in
   patches (events p) = [PatchRecord "Z1" "RB" Sample.ip;
                         PatchRecord "Z1" "RA" Sample.ip] /\
   patches (events q) = [PatchRecord "Z1" "RA" Sample.ip;
                         PatchRecord "Z1" "RB" Sample.ip]) /\
  ~ (forall w cfg c,
        calls (events (Part000.onTick w cfg c))
        = calls (events (Cdu.onTick w cfg c)) /\
        failed (Part000.onTick w cfg c) = failed (Cdu.onTick w cfg c)).
Proof.
  split; [repeat split; reflexivity|].
  split; [repeat split; reflexivity|].
  split; [repeat split; reflexivity|].
  split; [repeat split; reflexivity|].
  intros H. destruct (H Sample.w_no_zone Sample.cfg None) as [_ Hf].
  vm_compute in Hf. discriminate.
Qed.

Lemma lookups_decide w z names :
  (forall n, In n names -> lookup_ok w z n = true) \/
  (exists n, In n names /\ lookup_ok w z n = false).
Proof.
  induction names as [|a l IH]; [left; easy|].
  destruct (lookup_ok w z a) eqn:Ea.
  - destruct IH as [IH|(n & Hn & Hf)].
    + left. intros n [<-|Hn]; auto.
    + right. exists n. split; [now right|easy].
  - right. exists a. split; [now left|easy].
Qed.

Lemma updates_inl w zoneId ip l e :
  run_tasks (fun _ recordId => update_task w zoneId ip recordId) l tt = inl e ->
  exists id, In id l /\ update_task w zoneId ip id = inl e.
Proof.
  rewrite update_step_form.
  apply (run_tasks_inl (update_task w zoneId ip) (fun _ _ _ => tt)).
Qed.

(** Whether the update step fails does not depend on the order of the ids. *)
Lemma update_ending_perm w zoneId ip l l' :
  Permutation l l' ->
  match run_tasks (fun _ id => update_task w zoneId ip id) l tt with
  | inl _ => None
  | inr _ => Some Updated
  end =
  match run_tasks (fun _ id => update_task w zoneId ip id) l' tt with
  | inl _ => None
  | inr _ => Some Updated
  end.
Proof.
  intros Hperm.
  destruct (run_tasks _ l tt) as [e|[]] eqn:Hl;
    destruct (run_tasks _ l' tt) as [e'|[]] eqn:Hl'; try reflexivity.
  - apply updates_inl in Hl. destruct Hl as (id & Hid & He).
    rewrite (updates_inr w zoneId ip l' Hl' id) in He; [discriminate|].
    now apply (Permutation_in _ Hperm).
  - apply updates_inl in Hl'. destruct Hl' as (id & Hid & He).
    rewrite (updates_inr w zoneId ip l Hl id) in He; [discriminate|].
    now apply (Permutation_in _ (Permutation_sym Hperm)).
Qed.

Lemma written_values v l :
  map snd (written v l JsObject.empty)
  = map v (JsObject.keys (written v l JsObject.empty)).
Proof.
  pose proof (written_entries v l JsObject.empty) as H.
  unfold JsObject.keys.
  induction (written v l JsObject.empty) as [|[n x] o IH]; [reflexivity|].
  simpl. f_equal.
  - destruct (H n x (or_introl eq_refl)) as [?|[]]. easy.
  - apply IH. intros n' x' Hin. apply H. now right.
Qed.

(** With pairwise distinct names, the values of the object of part_000 are
    the ids of src/cdu.ts in another order. *)
Lemma idMap_values_perm w z names :
  NoDup names ->
  Permutation
    (JsObject.values
       (written (record_id w z) (settled (lookup_latency w) names)
          JsObject.empty))
    (map (record_id w z) names).
Proof.
  intros Hnd. rewrite JsObjectFacts.values_perm, written_values.
  apply Permutation_map. rewrite written_keys_perm.
  apply NoDup_Permutation; [apply NoDup_nodup|easy|].
  intros n. now rewrite nodup_In, settled_In.
Qed.

Lemma agree_same r : patches (events r) = [] -> agree r r.
Proof.
  intros H. split; [easy|]. split; [easy|].
  exists (events r), [], []. simpl. rewrite app_nil_r.
  repeat split; try easy.
Qed.

Lemma patches_head ip zn z names :
  patches (AskIp :: CacheSet ip :: Call (GetZone zn)
             :: map (fun n => Call (GetRecord z n)) names) = [].
Proof.
  unfold patches. cbn [calls]. rewrite calls_map_Call.
  cbn [filter is_patch]. now apply filter_map_none.
Qed.

Lemma ending_update (x : Error + unit) c evs :
  ending (mkRun (match x with inl e => inl e | inr _ => inr Updated end)
            c evs)
  = match x with inl _ => None | inr _ => Some Updated end.
Proof. now destruct x. Qed.

(** C10, amended.  With pairwise distinct record names, and a provider that
    gives an id whenever a lookup of the zone or of a configured record
    succeeds, the passes of the two files agree for every address, every
    answer of the provider and every order of settlement: they leave the
    same cache, they end the same way (no change, updated, or failed), they
    produce the same events in the same order up to the updates, and they
    send the same updates, possibly in a different order. *)
Theorem versions_agree_when_valid w cfg c :
  NoDup (recordNames cfg) ->
  (forall ids, cloudflare w (GetZone (zone cfg)) = Ok ids ->
               truthy (hd_error ids) = true) ->
  (forall z more n,
      cloudflare w (GetZone (zone cfg)) = Ok (z :: more) ->
      In n (recordNames cfg) -> lookup_ok w z n = true ->
      truthy (record_id w z n) = true) ->
  agree (Part000.onTick w cfg c) (Cdu.onTick w cfg c).
Proof.
  intros Hnd Hzone Hrec.
  destruct (ipify w) as [reason|ip] eqn:Hip.
  { rewrite Part000_onTick_run, Cdu_onTick_run, Hip. now apply agree_same. }
  destruct (strict_eq c ip) eqn:Heq.
  { rewrite Part000_onTick_run, Cdu_onTick_run, Hip, Heq.
    now apply agree_same. }
  assert (Hc : c <> Some ip).
  { intros ->. simpl in Heq. now rewrite String.eqb_refl in Heq. }
  destruct (cloudflare w (GetZone (zone cfg))) as [reason| |ids] eqn:Hz.
  { rewrite Part000_onTick_run, Cdu_onTick_run, Hip, Heq, Hz.
    now apply agree_same. }
  { rewrite Part000_onTick_run, Cdu_onTick_run, Hip, Heq, Hz.
    now apply agree_same. }
  pose proof (Hzone ids eq_refl) as Ht.
  destruct ids as [|z more]; [discriminate|]. cbn [hd_error] in Ht.
  assert (Hne : z <> "").
  { simpl in Ht. apply negb_true_iff in Ht. now apply String.eqb_neq. }
  destruct (lookups_decide w z (recordNames cfg)) as [Hok|Hfail].
  - assert (Hall : forall n, In n (recordNames cfg) ->
              lookup_ok w z n = true /\ truthy (record_id w z n) = true).
    { intros n Hn. split; [now apply Hok|].
      apply (Hrec z more n eq_refl Hn). now apply Hok. }
    rewrite (Part000_update_reached w cfg c ip z more Hip Hc Hz Hne Hall).
    rewrite (Cdu_update_reached w cfg c ip z more Hip Hc Hz Hok).
    pose proof (idMap_values_perm w z (recordNames cfg) Hnd) as Hperm.
    split; [reflexivity|]. split.
    { rewrite !ending_update. apply update_ending_perm.
      apply (Permutation_trans (settled_perm _ _)).
      apply (Permutation_trans Hperm).
      apply Permutation_sym, settled_perm. }
    exists (AskIp :: CacheSet ip :: Call (GetZone (zone cfg))
              :: map (fun n => Call (GetRecord z n)) (recordNames cfg)),
      (map (fun id => PatchRecord z (tpl id) ip)
           (JsObject.values
              (written (record_id w z)
                 (settled (lookup_latency w) (recordNames cfg))
                 JsObject.empty))),
      (map (fun id => PatchRecord z (tpl id) ip)
           (map (record_id w z) (recordNames cfg))).
    cbn [events]. rewrite !(map_map _ Call).
    split; [reflexivity|]. split; [reflexivity|].
    split; [apply patches_head|].
    split; [apply Forall_forall; intros q Hq; apply in_map_iff in Hq;
            now destruct Hq as (id & <- & _)|].
    now apply Permutation_map.
  - destruct (lookup_failure_runs w cfg c ip z more Hip Hc Hz Hne Hfail)
      as (pre & n & post & e & _ & _ & _ & _ & Hp & Hq).
    rewrite Hp, Hq. apply agree_same. apply patches_head.
Qed.

Lemma versions_agree_when_valid_witness :
  let w := Sample.w_second_first in
  let cfg := Sample.cfg in
  NoDup (recordNames cfg) /\
  (forall ids, cloudflare w (GetZone (zone cfg)) = Ok ids ->
               truthy (hd_error ids) = true) /\
  (forall z more n,
      cloudflare w (GetZone (zone cfg)) = Ok (z :: more) ->
      In n (recordNames cfg) -> lookup_ok w z n = true ->
      truthy (record_id w z n) = true) /\
  agree (Part000.onTick w cfg None) (Cdu.onTick w cfg None).
Proof.
  intros w cfg.
  assert (Hnd : NoDup (recordNames cfg)).
  { repeat constructor; simpl; intuition discriminate. }
  assert (Hzone : forall ids, cloudflare w (GetZone (zone cfg)) = Ok ids ->
                              truthy (hd_error ids) = true).
  { intros ids H. vm_compute in H. injection H as <-. reflexivity. }
  assert (Hrec : forall z more n,
             cloudflare w (GetZone (zone cfg)) = Ok (z :: more) ->
             In n (recordNames cfg) -> lookup_ok w z n = true ->
             truthy (record_id w z n) = true).
  { intros z more n _ [<-|[<-|[]]] _; reflexivity. }
  split; [exact Hnd|]. split; [exact Hzone|]. split; [exact Hrec|].
  apply (versions_agree_when_valid w cfg None Hnd Hzone Hrec).
Defined.

(** * Further properties of the code *)

(** ** The record list: [records.split(",")] *)

Lemma split_comma_nonempty s : split_comma s <> [].
Proof.
  destruct s as [|c r]; simpl; [discriminate|].
  destruct (Ascii.eqb c ","); [discriminate|].
  destruct (split_comma r); discriminate.
Qed.

Lemma join_comma_cons s h t :
  join_comma (s :: h :: t)
  = String.append s (String ","%char (join_comma (h :: t))).
Proof. reflexivity. Qed.

Lemma join_comma_push c h t :
  join_comma (String c h :: t) = String c (join_comma (h :: t)).
Proof. destruct t; reflexivity. Qed.

(** Splitting loses nothing: the entries joined by commas are the string
    that was configured; there is always at least one entry, empty entries
    and spaces are kept, and no entry has a comma. *)
Theorem split_comma_join s :
  join_comma (split_comma s) = s /\
  split_comma s <> [] /\
  (forall n, In n (split_comma s) -> has_comma n = false).
Proof.
  split; [|split; [apply split_comma_nonempty|]].
  - induction s as [|c r IH]; [reflexivity|].
    simpl split_comma.
    destruct (Ascii.eqb c ",") eqn:E.
    + apply Ascii.eqb_eq in E. subst c.
      destruct (split_comma r) as [|h t] eqn:Er;
        [now elim (split_comma_nonempty r)|].
      rewrite join_comma_cons, IH. reflexivity.
    + destruct (split_comma r) as [|h t] eqn:Er;
        [now elim (split_comma_nonempty r)|].
      now rewrite join_comma_push, IH.
  - induction s as [|c r IH]; intros n Hn.
    + destruct Hn as [<-|[]]. reflexivity.
    + simpl in Hn. destruct (Ascii.eqb c ",") eqn:E.
      * destruct Hn as [<-|Hn]; [reflexivity|now apply IH].
      * destruct (split_comma r) as [|h t] eqn:Er.
        { destruct Hn as [<-|[]]. simpl. now rewrite E. }
        destruct Hn as [<-|Hn].
        { simpl. rewrite E. apply IH. now left. }
        apply IH. now right.
Qed.

Lemma split_comma_free s : has_comma s = false -> split_comma s = [s].
Proof.
  induction s as [|c r IH]; [reflexivity|]. simpl.
  intros H. apply orb_false_iff in H. destruct H as [Hc Hr].
  now rewrite Hc, (IH Hr).
Qed.

Lemma split_comma_app s r :
  has_comma s = false ->
  split_comma (String.append s (String ","%char r)) = s :: split_comma r.
Proof.
  induction s as [|c s IH]; [reflexivity|]. simpl.
  intros H. apply orb_false_iff in H. destruct H as [Hc Hs].
  now rewrite Hc, (IH Hs).
Qed.

(** Every list of at least one name, none with a comma, is the record list
    of some configuration: that of the names joined by commas. *)
Theorem split_comma_of_join l :
  l <> [] -> (forall n, In n l -> has_comma n = false) ->
  split_comma (join_comma l) = l.
Proof.
  induction l as [|s l IH]; [easy|]. intros _ H.
  destruct l as [|h t].
  - apply split_comma_free, H. now left.
  - rewrite join_comma_cons, split_comma_app by (apply H; now left).
    f_equal. apply IH; [discriminate|]. intros n Hn. apply H. now right.
Qed.

Lemma split_comma_of_join_witness :
  let l := ["a.example.com"; ""; " b.example.com"] in
  l <> [] /\ (forall n, In n l -> has_comma n = false) /\
  join_comma l = "a.example.com,, b.example.com" /\
  split_comma (join_comma l) = l.
Proof.
  intros l.
  assert (H : forall n, In n l -> has_comma n = false).
  { intros n [<-|[<-|[<-|[]]]]; reflexivity. }
  split; [discriminate|]. split; [exact H|]. split; [reflexivity|].
  apply (split_comma_of_join l); [discriminate|exact H].
Defined.

(** ** The address request *)

(** When the request to the address service fails, the pass of either file
    fails with that very error, having asked nothing of the provider, and
    the cache is as it was. *)
Theorem address_failure_stops_pass w cfg c reason :
  ipify w = IpFailure reason ->
  Part000.onTick w cfg c = mkRun (inl (FetchError reason)) c [AskIp] /\
  Cdu.onTick w cfg c = mkRun (inl (FetchError reason)) c [AskIp].
Proof.
  intros H. now rewrite Part000_onTick_run, Cdu_onTick_run, H.
Qed.

Lemma address_failure_stops_pass_witness :
  let w := MoreSamples.w_ip_down in
  let c := Some Sample.ip in
  ipify w = IpFailure "dns error" /\
  Part000.onTick w Sample.cfg c = mkRun (inl (FetchError "dns error")) c [AskIp] /\
  Cdu.onTick w Sample.cfg c = mkRun (inl (FetchError "dns error")) c [AskIp].
Proof.
  intros w c. split; [reflexivity|].
  apply (address_failure_stops_pass w Sample.cfg c "dns error").
  reflexivity.
Defined.

(** ** The cache over the passes of the job *)

Lemma strict_eq_inv c ip : strict_eq c ip = true -> c = Some ip.
Proof.
  destruct c as [p|]; simpl; [|discriminate].
  intros H. apply String.eqb_eq in H. now subst.
Qed.

(** After a pass the cache holds the address the pass read, however the
    pass ended; it is as before when the address could not be read. *)
Lemma cache_after_pass w cfg c :
  cache_after (Part000.onTick w cfg c)
  = match ipify w with IpText ip => Some ip | IpFailure _ => c end /\
  cache_after (Cdu.onTick w cfg c)
  = match ipify w with IpText ip => Some ip | IpFailure _ => c end.
Proof.
  destruct (ipify w) as [reason|ip] eqn:Hip.
  - now rewrite Part000_onTick_run, Cdu_onTick_run, Hip.
  - destruct (strict_eq c ip) eqn:Heq.
    + rewrite Part000_onTick_run, Cdu_onTick_run, Hip, Heq.
      apply strict_eq_inv in Heq. now subst.
    + assert (Hc : c <> Some ip).
      { intros ->. simpl in Heq. now rewrite String.eqb_refl in Heq. }
      destruct (Part000_shape w cfg c ip Hip Hc) as (? & ? & _ & ->).
      destruct (Cdu_shape w cfg c ip Hip Hc) as (? & ? & _ & ->).
      now split.
Qed.

Lemma last_default {A} (l : list A) b d d' :
  last (b :: l) d = last (b :: l) d'.
Proof.
  revert b. induction l as [|x l IH]; intros b; [reflexivity|].
  change (last (x :: l) d = last (x :: l) d'). apply IH.
Qed.

Lemma last_cons {A} (l : list A) a c : last (a :: l) c = last l a.
Proof.
  revert a. induction l as [|b l IH]; intros a; [reflexivity|].
  change (last (b :: l) c = last (b :: l) a). apply last_default.
Qed.

Lemma cache_at_end_cons r rs c :
  cache_at_end (r :: rs) c = cache_at_end rs (cache_after r).
Proof. unfold cache_at_end. simpl map. apply last_cons. Qed.

(** Whatever the passes of the job did, succeed or fail at any step, the
    cache holds the last address that was read: not the last address that
    was applied.  This for the passes of either file. *)
Theorem cache_holds_last_read cfg ws c :
  cache_at_end (ticks Part000.onTick cfg ws c) c = last_read ws c /\
  cache_at_end (ticks Cdu.onTick cfg ws c) c = last_read ws c.
Proof.
  revert c. induction ws as [|w ws IH]; intros c; [now split|].
  cbn [ticks]. rewrite !cache_at_end_cons.
  destruct (cache_after_pass w cfg c) as [-> ->].
  unfold last_read. cbn [fold_left]. apply IH.
Qed.

Lemma ticks_same_address tick cfg ws ip :
  (forall w, ipify w = IpText ip -> noop (Some ip) (tick w cfg (Some ip))) ->
  (forall w, In w ws -> ipify w = IpText ip) ->
  Forall (noop (Some ip)) (ticks tick cfg ws (Some ip)).
Proof.
  intros Htick. induction ws as [|w ws IH]; intros Hall; [constructor|].
  cbn [ticks].
  pose proof (Htick w (Hall w (or_introl eq_refl))) as Hn.
  constructor; [exact Hn|].
  destruct Hn as (_ & _ & ->). apply IH.
  intros w' Hw'. apply Hall. now right.
Qed.

(** While the address service keeps giving the same address, only the
    first pass of the job can ask anything of the provider: every later
    pass is a no-op, however the first one ended, and so is the first one
    when the cache already holds that address.  This for either file. *)
Theorem same_address_asks_once cfg ws c ip :
  (forall w, In w ws -> ipify w = IpText ip) ->
  (Forall (noop (Some ip)) (tl (ticks Part000.onTick cfg ws c)) /\
   Forall (noop (Some ip)) (tl (ticks Cdu.onTick cfg ws c))) /\
  (c = Some ip ->
   Forall (noop (Some ip)) (ticks Part000.onTick cfg ws c) /\
   Forall (noop (Some ip)) (ticks Cdu.onTick cfg ws c)).
Proof.
  intros Hall. split.
  - destruct ws as [|w ws]; [split; constructor|]. cbn [ticks tl].
    destruct (cache_after_pass w cfg c) as [-> ->].
    rewrite (Hall w (or_introl eq_refl)).
    split; apply ticks_same_address;
      try (intros w' Hw'; apply Hall; now right).
    + intros w' Hw'. now apply noop_unchanged_Part000.
    + intros w' Hw'. now apply noop_unchanged_Cdu.
  - intros ->. split; apply ticks_same_address; try easy.
    + intros w' Hw'. now apply noop_unchanged_Part000.
    + intros w' Hw'. now apply noop_unchanged_Cdu.
Qed.

Lemma same_address_asks_once_witness :
  let ws := [Sample.w_update_fails; Sample.w_both; Sample.w_zone_down] in
  (forall w, In w ws -> ipify w = IpText Sample.ip) /\
  result (Part000.onTick Sample.w_update_fails Sample.cfg None)
  = inl (FailedToUpdate "RA") /\
  (Forall (noop (Some Sample.ip))
     (tl (ticks Part000.onTick Sample.cfg ws None)) /\
   Forall (noop (Some Sample.ip))
     (tl (ticks Cdu.onTick Sample.cfg ws None))) /\
  (None = Some Sample.ip ->
   Forall (noop (Some Sample.ip)) (ticks Part000.onTick Sample.cfg ws None) /\
   Forall (noop (Some Sample.ip)) (ticks Cdu.onTick Sample.cfg ws None)).
Proof.
  intros ws.
  assert (H : forall w, In w ws -> ipify w = IpText Sample.ip).
  { intros w [<-|[<-|[<-|[]]]]; reflexivity. }
  split; [exact H|]. split; [reflexivity|].
  apply (same_address_asks_once Sample.cfg ws None Sample.ip H).
Defined.

(** ** [updateDNSRecord] *)

Lemma update_task_ok_iff w zoneId ip id :
  update_task w zoneId ip id = inr tt <->
  update_ok w (tpl zoneId) (tpl id) ip = true.
Proof.
  unfold update_task, update_ok.
  destruct (cloudflare w (PatchRecord (tpl zoneId) (tpl id) ip));
    split; intros H; try discriminate; reflexivity.
Qed.

Lemma update_task_inl w zoneId ip id e :
  update_task w zoneId ip id = inl e ->
  update_ok w (tpl zoneId) (tpl id) ip = false /\
  (cloudflare w (PatchRecord (tpl zoneId) (tpl id) ip) = NotOk /\
   e = FailedToUpdate (tpl id) \/
   exists reason,
     cloudflare w (PatchRecord (tpl zoneId) (tpl id) ip)
     = NetworkFailure reason /\ e = FetchError reason).
Proof.
  unfold update_task, update_ok.
  destruct (cloudflare w (PatchRecord (tpl zoneId) (tpl id) ip))
    as [reason| |b]; try discriminate;
    intros H; injection H as <-; split; eauto.
Qed.

(** [updateDNSRecord] sends one update per id it is given, in the order
    given and whatever the answers will be, nothing else, and leaves the
    cache alone; it succeeds exactly when every one of the updates is
    answered with a success status and a body that is JSON.  (A success
    status is not enough: the task awaits [res.json()], and an answer
    whose body cannot be read is a failure of the update.) *)
Theorem updateDNSRecord_all_sent w zoneId recordIds ip c :
  let r := updateDNSRecord w zoneId recordIds ip c in
  events r = map (fun id => Call (PatchRecord (tpl zoneId) (tpl id) ip))
                 recordIds /\
  cache_after r = c /\
  (result r = inr tt <->
   forall id, In id recordIds ->
              update_ok w (tpl zoneId) (tpl id) ip = true).
Proof.
  intros r. subst r. rewrite updateDNSRecord_run. cbn [events cache_after result].
  split; [reflexivity|]. split; [reflexivity|]. split.
  - intros H id Hid. apply update_task_ok_iff.
    apply (updates_inr w zoneId ip _ H). now apply settled_In.
  - intros H. apply updates_ok. intros id Hid.
    apply update_task_ok_iff, H. now apply settled_In in Hid.
Qed.

(** When some update is refused or fails in the network, [updateDNSRecord]
    fails with the error of the failing update that settles first: [failed
    to update DNS record] with its id for a non-success status, the
    rejection of [fetch] as it is for a failure in the network. *)
Theorem updateDNSRecord_first_failure w zoneId recordIds ip c :
  (exists id, In id recordIds /\
              update_ok w (tpl zoneId) (tpl id) ip = false) ->
  exists pre id post e,
    settled (update_latency w) recordIds = pre ++ id :: post /\
    (forall u, In u pre -> update_ok w (tpl zoneId) (tpl u) ip = true) /\
    In id recordIds /\
    (cloudflare w (PatchRecord (tpl zoneId) (tpl id) ip) = NotOk /\
     e = FailedToUpdate (tpl id) \/
     exists reason,
       cloudflare w (PatchRecord (tpl zoneId) (tpl id) ip)
       = NetworkFailure reason /\ e = FetchError reason) /\
    result (updateDNSRecord w zoneId recordIds ip c) = inl e.
Proof.
  intros (id0 & Hid0 & Hfail).
  destruct (updates_first w zoneId ip (settled (update_latency w) recordIds))
    as (pre & id & post & e & Hl & Hpre & Hid & Hrun).
  { exists id0. split; [now apply settled_In|].
    destruct (update_task w zoneId ip id0) as [e|[]] eqn:E; [eauto|].
    apply update_task_ok_iff in E. congruence. }
  exists pre, id, post, e. split; [exact Hl|].
  split; [intros u Hu; now apply update_task_ok_iff, Hpre|].
  split; [apply (settled_In (update_latency w)); rewrite Hl; apply in_elt|].
  split; [now apply update_task_inl in Hid|].
  now rewrite updateDNSRecord_run.
Qed.

Lemma updateDNSRecord_first_failure_witness :
  let w := MoreSamples.w_updates_fail in
  let ids := [Some "RA"; Some "RB"] in
  (exists id, In id ids /\ update_ok w "Z1" (tpl id) Sample.ip = false) /\
  result (updateDNSRecord w (Some "Z1") ids Sample.ip None)
  = inl (FetchError "timed out") /\
  exists pre id post e,
    settled (update_latency w) ids = pre ++ id :: post /\
    (forall u, In u pre -> update_ok w "Z1" (tpl u) Sample.ip = true) /\
    In id ids /\
    (cloudflare w (PatchRecord "Z1" (tpl id) Sample.ip) = NotOk /\
     e = FailedToUpdate (tpl id) \/
     exists reason,
       cloudflare w (PatchRecord "Z1" (tpl id) Sample.ip)
       = NetworkFailure reason /\ e = FetchError reason) /\
    result (updateDNSRecord w (Some "Z1") ids Sample.ip None) = inl e.
Proof.
  intros w ids.
  assert (H : exists id, In id ids /\
                         update_ok w "Z1" (tpl id) Sample.ip = false).
  { exists (Some "RA"). split; [now left|reflexivity]. }
  split; [exact H|]. split; [reflexivity|].
  apply (updateDNSRecord_first_failure w (Some "Z1") ids Sample.ip None H).
Defined.

(** ** [getRecordIds] *)

(** part_000: record resolution completes exactly when every lookup is
    answered with a success status and a body in which the ids can be
    read; a lookup that matches nothing is no failure.  The mapping it
    then returns has the configured names for keys, each once, and holds
    for each name that is configured once the first id of the answer to
    its lookup, or [undefined] when the answer has no entry.  The cache is
    left alone. *)
Theorem Part000_getRecordIds_complete w z names c :
  let r := Part000.getRecordIds w (Some z) names c in
  ((exists idMap, result r = inr idMap) <->
   forall n, In n names -> lookup_ok w z n = true) /\
  (forall idMap, result r = inr idMap ->
     NoDup (JsObject.keys idMap) /\
     (forall n, In n (JsObject.keys idMap) <-> In n names) /\
     forall n, count_occ string_dec names n = 1 ->
               JsObject.get n idMap = record_id w z n) /\
  cache_after r = c.
Proof.
  intros r. subst r. rewrite Part000_getRecordIds_run.
  cbn [result cache_after]. split; [split|split; [|reflexivity]].
  - intros (idMap & H). now apply lookups_complete in H.
  - intros H. rewrite lookups_ok by easy. eauto.
  - intros idMap H. apply lookups_complete in H. destruct H as [_ ->].
    split; [apply written_NoDup; constructor|].
    split; [apply idMap_keys|]. intros n Hn. apply idMap_get.
    apply (count_occ_In string_dec). lia.
Qed.

Lemma lookup_task_tpl w zoneId n :
  lookup_task w zoneId n = lookup_task w (Some (tpl zoneId)) n.
Proof. reflexivity. Qed.

Lemma Cdu_lookups_inr w zoneId names ids :
  Cdu.promise_all (completion_order (lookup_latency w) (length names))
    (map (lookup_task w zoneId) names) = inr ids ->
  (forall n, In n names -> lookup_ok w (tpl zoneId) n = true) /\
  ids = map (record_id w (tpl zoneId)) names.
Proof.
  rewrite (map_ext _ _ (lookup_task_tpl w zoneId)). intros H.
  assert (Hok : forall n, In n names -> lookup_ok w (tpl zoneId) n = true).
  { rewrite promise_all_run in H.
    destruct (run_tasks _ _ _) as [e|[]] eqn:Hrun; [discriminate|].
    intros n Hn.
    destruct (run_tasks_inr (lookup_task w (Some (tpl zoneId)))
                (fun _ _ _ => tt) _ _ _ Hrun n) as [id Hid];
      [now apply settled_In|].
    now apply lookup_task_inr in Hid. }
  split; [exact Hok|]. rewrite Cdu_lookups_ok in H by easy.
  now injection H.
Qed.

(** src/cdu.ts: record resolution completes exactly when every lookup is
    answered with a success status and a body in which the ids can be
    read, and then returns one value per configured entry, in the order of
    the configuration whatever the order of settlement: the first id of
    the answer to the lookup of the entry, or [undefined] when the answer
    has no entry.  All the lookups are sent in any case. *)
Theorem Cdu_getRecordIds_in_order w zoneId names c :
  let r := Cdu.getRecordIds w zoneId names c in
  (forall ids,
      result r = inr ids <->
      (forall n, In n names -> lookup_ok w (tpl zoneId) n = true) /\
      ids = map (record_id w (tpl zoneId)) names) /\
  calls (events r) = map (GetRecord (tpl zoneId)) names /\
  cache_after r = c.
Proof.
  intros r. subst r. rewrite Cdu_getRecordIds_run.
  cbn [result cache_after events]. rewrite calls_map_Call.
  split; [|now split].
  intros ids. split; [apply Cdu_lookups_inr|].
  intros [Hok ->].
  rewrite (map_ext _ _ (lookup_task_tpl w zoneId)).
  now apply Cdu_lookups_ok.
Qed.

(** ** When a pass succeeds *)

Lemma truthy_inv ids :
  truthy (hd_error ids) = true -> exists z more, ids = z :: more /\ z <> "".
Proof.
  destruct ids as [|z more]; [discriminate|]. simpl. intros H.
  exists z, more. split; [reflexivity|].
  apply negb_true_iff in H. now apply String.eqb_neq.
Qed.

Lemma strict_eq_false_inv c ip : strict_eq c ip = false -> c <> Some ip.
Proof. intros H ->. simpl in H. now rewrite String.eqb_refl in H. Qed.

(** part_000: a pass ends with the records updated exactly when the address
    read is not the cached one, the zone lookup is answered with a success
    status and a body whose first match has an id, and every configured
    name has its lookup answered with a success status and a body whose
    first match has an id, and the update of that id answered with a
    success status and a body that is JSON.  Every other answer, a success
    status with a body that cannot be read among them, keeps the pass from
    ending so. *)
Theorem Part000_updated_iff w cfg c :
  result (Part000.onTick w cfg c) = inr Updated <->
  exists ip z more,
    ipify w = IpText ip /\ c <> Some ip /\
    cloudflare w (GetZone (zone cfg)) = Ok (z :: more) /\ z <> "" /\
    forall n, In n (recordNames cfg) ->
      lookup_ok w z n = true /\
      truthy (record_id w z n) = true /\
      update_ok w z (tpl (record_id w z n)) ip = true.
Proof.
  split.
  - rewrite Part000_onTick_run.
    destruct (ipify w) as [reason|ip] eqn:Hip; [discriminate|].
    destruct (strict_eq c ip) eqn:Heq; [discriminate|].
    apply strict_eq_false_inv in Heq.
    destruct (cloudflare w (GetZone (zone cfg))) as [reason| |ids] eqn:Hz;
      [discriminate|discriminate|].
    destruct (truthy (hd_error ids)) eqn:Ht; [|discriminate].
    destruct (truthy_inv ids Ht) as (z & more & -> & Hne).
    cbn [negb hd_error]. rewrite Part000_records_run.
    unfold prepend. cbn [result].
    destruct (run_tasks _ _ _) as [e|idMap] eqn:Hrun; [discriminate|].
    apply lookups_complete in Hrun. destruct Hrun as [Hok ->].
    destruct (find _ _) eqn:Hfind; [discriminate|]. cbn [result].
    destruct (run_tasks _ _ tt) as [e|[]] eqn:Hup; [discriminate|].
    intros _. exists ip, z, more. repeat split; try easy.
    + now apply Hok.
    + rewrite find_none_iff in Hfind. specialize (Hfind n H).
      rewrite idMap_get in Hfind by easy. now apply negb_false_iff.
    + apply (update_task_ok_iff w (Some z) ip).
      apply (updates_inr w (Some z) ip _ Hup).
      apply settled_In, idMap_values. eauto.
  - intros (ip & z & more & Hip & Hc & Hz & Hne & Hall).
    rewrite (Part000_update_reached w cfg c ip z more Hip Hc Hz Hne)
      by (intros n Hn; split; now apply Hall).
    cbn [result]. rewrite updates_ok; [reflexivity|].
    intros id Hid. apply settled_In, idMap_values in Hid.
    destruct Hid as (n & Hn & ->).
    apply (update_task_ok_iff w (Some z) ip). now apply Hall.
Qed.

Lemma Cdu_update_reached_any w cfg c ip ids :
  ipify w = IpText ip -> c <> Some ip ->
  cloudflare w (GetZone (zone cfg)) = Ok ids ->
  (forall n, In n (recordNames cfg) ->
             lookup_ok w (tpl (hd_error ids)) n = true) ->
  Cdu.onTick w cfg c =
  mkRun (match run_tasks
                 (fun _ recordId =>
                    update_task w (hd_error ids) ip recordId)
                 (settled (update_latency w)
                    (map (record_id w (tpl (hd_error ids)))
                         (recordNames cfg))) tt with
         | inl e => inl e
         | inr _ => inr Updated
         end)
        (Some ip)
        (AskIp :: CacheSet ip :: Call (GetZone (zone cfg))
           :: map (fun n => Call (GetRecord (tpl (hd_error ids)) n))
                (recordNames cfg)
           ++ map (fun id => Call (PatchRecord (tpl (hd_error ids))
                                     (tpl id) ip))
                (map (record_id w (tpl (hd_error ids))) (recordNames cfg))).
Proof.
  intros Hip Hc Hz Hall.
  rewrite (Cdu_resolved w cfg c ip ids Hip Hc Hz).
  rewrite (map_ext _ _ (lookup_task_tpl w (hd_error ids))).
  now rewrite Cdu_lookups_ok.
Qed.

Lemma Cdu_lookups_inl w zoneId names e :
  Cdu.promise_all (completion_order (lookup_latency w) (length names))
    (map (lookup_task w zoneId) names) = inl e ->
  exists n, In n names /\ lookup_ok w (tpl zoneId) n = false.
Proof.
  rewrite (map_ext _ _ (lookup_task_tpl w zoneId)), promise_all_run.
  destruct (run_tasks _ _ _) as [e'|[]] eqn:Hrun; [|discriminate].
  intros _.
  destruct (run_tasks_inl (lookup_task w (Some (tpl zoneId)))
              (fun _ _ _ => tt) _ _ _ Hrun) as (n & Hn & He).
  exists n. split; [now apply settled_In in Hn|].
  now apply lookup_task_inl in He.
Qed.

(** src/cdu.ts: a pass ends with the records updated exactly when the
    address read is not the cached one, the zone lookup and every record
    lookup are answered with a success status and a body in which the ids
    can be read, and every update with a success status and a body that is
    JSON; whether the lookups matched anything plays no part, an absent id
    going into the requests as [undefined].  A success status with a body
    that cannot be read, one without [result] for one, ends the pass with
    the error of the runtime. *)
Theorem Cdu_updated_iff w cfg c :
  result (Cdu.onTick w cfg c) = inr Updated <->
  exists ip ids,
    ipify w = IpText ip /\ c <> Some ip /\
    cloudflare w (GetZone (zone cfg)) = Ok ids /\
    forall n, In n (recordNames cfg) ->
      lookup_ok w (tpl (hd_error ids)) n = true /\
      update_ok w (tpl (hd_error ids))
        (tpl (record_id w (tpl (hd_error ids)) n)) ip = true.
Proof.
  split.
  - intros H.
    destruct (ipify w) as [reason|ip] eqn:Hip;
      [now rewrite Cdu_onTick_run, Hip in H|].
    destruct (strict_eq c ip) eqn:Heq;
      [now rewrite Cdu_onTick_run, Hip, Heq in H|].
    apply strict_eq_false_inv in Heq.
    destruct (cloudflare w (GetZone (zone cfg))) as [reason| |ids] eqn:Hz;
      [now rewrite Cdu_onTick_run, Hip, (strict_eq_false _ _ Heq), Hz in H
      |now rewrite Cdu_onTick_run, Hip, (strict_eq_false _ _ Heq), Hz in H|].
    assert (Hok : forall n, In n (recordNames cfg) ->
                    lookup_ok w (tpl (hd_error ids)) n = true).
    { destruct (lookups_decide w (tpl (hd_error ids)) (recordNames cfg))
        as [Hok|Hfail]; [exact Hok|].
      rewrite (Cdu_resolved w cfg c ip ids Hip Heq Hz) in H.
      rewrite (map_ext _ _ (lookup_task_tpl w (hd_error ids))) in H.
      destruct (lookups_first_failure w _ _ Hfail)
        as (? & ? & ? & e & _ & _ & _ & _ & _ & Hq).
      now rewrite Hq in H. }
    rewrite (Cdu_update_reached_any w cfg c ip ids Hip Heq Hz Hok) in H.
    cbn [result] in H.
    destruct (run_tasks _ _ tt) as [e|[]] eqn:Hup; [discriminate|].
    exists ip, ids. repeat split; try easy; [now apply Hok|].
    apply update_task_ok_iff. apply (updates_inr w _ ip _ Hup).
    apply settled_In, in_map. assumption.
  - intros (ip & ids & Hip & Hc & Hz & Hall).
    rewrite (Cdu_update_reached_any w cfg c ip ids Hip Hc Hz)
      by (intros n Hn; now apply Hall).
    cbn [result]. rewrite updates_ok; [reflexivity|].
    intros id Hid. apply settled_In, in_map_iff in Hid.
    destruct Hid as (n & <- & Hn).
    apply update_task_ok_iff. now apply Hall.
Qed.

(** ** The order of the updates *)

Lemma digits_value_nondigit s acc :
  has_nondigit s = true -> JsObject.digits_value s acc = None.
Proof.
  revert acc. induction s as [|c r IH]; intros acc; [discriminate|].
  simpl. destruct (JsObject.digit_of c); [apply IH|reflexivity].
Qed.

(** A name with a character that is not a digit, a dot for one, is no
    array index. *)
Lemma nondigit_not_index n :
  has_nondigit n = true -> JsObject.array_index n = None.
Proof.
  intros H. unfold JsObject.array_index.
  destruct n as [|c r]; [reflexivity|].
  destruct r as [|c' r'].
  - simpl in H. now destruct (JsObject.digit_of c).
  - destruct (Ascii.eqb c "0"); [reflexivity|].
    now rewrite digits_value_nondigit.
Qed.

Lemma set_fresh k v o :
  ~ In k (JsObject.keys o) -> JsObject.set k v o = o ++ [(k, v)].
Proof.
  induction o as [|[k' v'] r IH]; intros H; [reflexivity|]. simpl.
  destruct (k' =? k) eqn:E.
  - apply String.eqb_eq in E. subst. elim H. now left.
  - rewrite IH; [reflexivity|]. intros Hin. apply H. now right.
Qed.

Lemma written_fresh v l o :
  NoDup l -> (forall n, In n l -> ~ In n (JsObject.keys o)) ->
  written v l o = o ++ map (fun n => (n, v n)) l.
Proof.
  revert o. induction l as [|k l IH]; intros o Hnd Hout.
  - simpl. now rewrite app_nil_r.
  - apply NoDup_cons_iff in Hnd. destruct Hnd as [Hk Hnd].
    change (written v (k :: l) o) with (written v l (JsObject.set k (v k) o)).
    rewrite set_fresh by (apply Hout; now left).
    rewrite IH; [now rewrite <- app_assoc|easy|].
    intros n Hn. unfold JsObject.keys. rewrite map_app, in_app_iff.
    intros [Hin|[<-|[]]]; [|easy].
    apply (Hout n); [now right|exact Hin].
Qed.

Lemma own_properties_plain (o : JsObject.t) :
  (forall p, In p o -> JsObject.is_index p = false) ->
  JsObject.own_properties o = o.
Proof.
  intros H. unfold JsObject.own_properties.
  assert (H1 : filter JsObject.is_index o = []).
  { clear -H. induction o as [|p o IH]; [reflexivity|]. simpl.
    rewrite (H p (or_introl eq_refl)). apply IH.
    intros q Hq. apply H. now right. }
  assert (H2 : filter (fun p => negb (JsObject.is_index p)) o = o).
  { clear -H. induction o as [|p o IH]; [reflexivity|]. simpl.
    rewrite (H p (or_introl eq_refl)). simpl. f_equal. apply IH.
    intros q Hq. apply H. now right. }
  now rewrite H1, H2.
Qed.

(** With distinct names that are no array indices, the values of the
    object are the ids in the order in which the names were written. *)
Lemma values_written v l :
  NoDup l -> (forall n, In n l -> has_nondigit n = true) ->
  JsObject.values (written v l JsObject.empty) = map v l.
Proof.
  intros Hnd Hplain. unfold JsObject.values.
  rewrite written_fresh by easy. cbn [JsObject.empty app].
  rewrite own_properties_plain; [now rewrite map_map|].
  intros p Hp. apply in_map_iff in Hp. destruct Hp as (n & <- & Hn).
  unfold JsObject.is_index. cbn [fst].
  now rewrite nondigit_not_index by (now apply Hplain).
Qed.

(** part_000: with pairwise distinct record names, each with a character
    that is not a digit (a dot, say), the updates of a pass are sent in
    the order in which the lookups of the names settled, not in the order
    of the configuration. *)
Theorem Part000_updates_in_settlement_order w cfg c :
  NoDup (recordNames cfg) ->
  (forall n, In n (recordNames cfg) -> has_nondigit n = true) ->
  let r := Part000.onTick w cfg c in
  patches (events r) <> [] ->
  exists ip z,
    ipify w = IpText ip /\
    patches (events r) =
    map (fun n => PatchRecord z (tpl (record_id w z n)) ip)
        (settled (lookup_latency w) (recordNames cfg)).
Proof.
  intros Hnd Hplain r H. subst r.
  destruct (Part000_patches w cfg c H)
    as (ip & z & more & Hip & _ & _ & _ & _ & _ & ->).
  exists ip, z. split; [exact Hip|].
  rewrite values_written, map_map; [reflexivity| |].
  - apply (Permutation_NoDup
             (Permutation_sym (settled_perm (lookup_latency w) _)) Hnd).
  - intros n Hn. apply Hplain. now apply settled_In in Hn.
Qed.

Lemma Part000_updates_in_settlement_order_witness :
  let w := Sample.w_second_first in
  let cfg := Sample.cfg in
  let r := Part000.onTick w cfg None in
  NoDup (recordNames cfg) /\
  (forall n, In n (recordNames cfg) -> has_nondigit n = true) /\
  patches (events r) <> [] /\
  settled (lookup_latency w) (recordNames cfg)
  = ["b.example.com"; "a.example.com"] /\
  exists ip z,
    ipify w = IpText ip /\
    patches (events r) =
    map (fun n => PatchRecord z (tpl (record_id w z n)) ip)
        (settled (lookup_latency w) (recordNames cfg)).
Proof.
  intros w cfg r.
  assert (Hnd : NoDup (recordNames cfg)).
  { repeat constructor; simpl; intuition discriminate. }
  assert (Hplain : forall n, In n (recordNames cfg) -> has_nondigit n = true).
  { intros n [<-|[<-|[]]]; reflexivity. }
  split; [exact Hnd|]. split; [exact Hplain|]. split; [discriminate|].
  split; [reflexivity|].
  apply (Part000_updates_in_settlement_order w cfg None Hnd Hplain).
  discriminate.
Defined.

(** src/cdu.ts: a pass that sends any update sends one per configured
    entry, repeated names included, in the order of the configuration; an
    entry whose lookup matched nothing gets an update for the record id
    [undefined], and so does every entry, in the zone [undefined], when
    the zone lookup matched nothing. *)
Theorem Cdu_updates_in_configured_order w cfg c :
  let r := Cdu.onTick w cfg c in
  patches (events r) <> [] ->
  exists ip ids,
    ipify w = IpText ip /\
    cloudflare w (GetZone (zone cfg)) = Ok ids /\
    patches (events r) =
    map (fun n => PatchRecord (tpl (hd_error ids))
                    (tpl (record_id w (tpl (hd_error ids)) n)) ip)
        (recordNames cfg).
Proof.
  intros r H. subst r.
  destruct (ipify w) as [reason|ip] eqn:Hip;
    [now rewrite Cdu_onTick_run, Hip in H|].
  destruct (strict_eq c ip) eqn:Heq;
    [now rewrite Cdu_onTick_run, Hip, Heq in H|].
  apply strict_eq_false_inv in Heq.
  destruct (cloudflare w (GetZone (zone cfg))) as [reason| |ids] eqn:Hz;
    [now rewrite Cdu_onTick_run, Hip, (strict_eq_false _ _ Heq), Hz in H
    |now rewrite Cdu_onTick_run, Hip, (strict_eq_false _ _ Heq), Hz in H|].
  exists ip, ids. split; [reflexivity|]. split; [reflexivity|].
  destruct (lookups_decide w (tpl (hd_error ids)) (recordNames cfg))
    as [Hok|Hfail].
  - rewrite (Cdu_update_reached_any w cfg c ip ids Hip Heq Hz Hok).
    cbn [events].
    rewrite (patches_pass ip (zone cfg) (tpl (hd_error ids)) (recordNames cfg)
               (fun id => PatchRecord (tpl (hd_error ids)) (tpl id) ip))
      by easy.
    now rewrite map_map.
  - exfalso. apply H.
    rewrite (Cdu_resolved w cfg c ip ids Hip Heq Hz).
    rewrite (map_ext _ _ (lookup_task_tpl w (hd_error ids))).
    destruct (lookups_first_failure w _ _ Hfail)
      as (? & ? & ? & e & _ & _ & _ & _ & _ & Hq).
    rewrite Hq. unfold prepend. cbn [events]. rewrite app_nil_r.
    apply patches_head.
Qed.

Lemma Cdu_updates_in_configured_order_witness :
  let w := Sample.w_no_zone in
  let cfg := Sample.cfg_twice in
  let r := Cdu.onTick w cfg None in
  patches (events r) <> [] /\
  patches (events r) = [PatchRecord "undefined" "RA" Sample.ip;
                        PatchRecord "undefined" "RA" Sample.ip] /\
  exists ip ids,
    ipify w = IpText ip /\
    cloudflare w (GetZone (zone cfg)) = Ok ids /\
    patches (events r) =
    map (fun n => PatchRecord (tpl (hd_error ids))
                    (tpl (record_id w (tpl (hd_error ids)) n)) ip)
        (recordNames cfg).
Proof.
  intros w cfg r. split; [discriminate|]. split; [reflexivity|].
  apply (Cdu_updates_in_configured_order w cfg None). discriminate.
Defined.

(** ** The errors of a pass *)

(** part_000: where the error of a failed pass comes from. *)
Lemma Part000_error_cases w cfg c e :
  result (Part000.onTick w cfg c) = inl e ->
  (exists reason, e = FetchError reason) \/
  e = FailedToFindZone (zone cfg) \/
  e = ZoneDoesntExist (zone cfg) \/
  (exists n, In n (recordNames cfg) /\
             (e = FailedToFindRecord n \/ e = RecordDoesntExist n)) \/
  (exists n z more, In n (recordNames cfg) /\
                    cloudflare w (GetZone (zone cfg)) = Ok (z :: more) /\
                    truthy (record_id w z n) = true /\
                    e = FailedToUpdate (tpl (record_id w z n))).
Proof.
  rewrite Part000_onTick_run.
  destruct (ipify w) as [reason|ip] eqn:Hip.
  { intros H. injection H as <-. eauto. }
  destruct (strict_eq c ip) eqn:Heq; [discriminate|].
  unfold prepend. cbn [result].
  destruct (cloudflare w (GetZone (zone cfg))) as [reason| |ids] eqn:Hz.
  { intros H. injection H as <-. eauto. }
  { intros H. injection H as <-. auto. }
  destruct (truthy (hd_error ids)) eqn:Ht; cbn [negb].
  2:{ intros H. injection H as <-. auto. }
  destruct (truthy_inv ids Ht) as (z & more & -> & Hne). cbn [hd_error].
  rewrite Part000_records_run. unfold prepend. cbn [result].
  destruct (run_tasks _ _ _) as [e'|idMap] eqn:Hrun.
  { intros H. injection H as <-.
    destruct (run_tasks_inl (lookup_task w (Some z))
                (fun idMap n id => JsObject.set n id idMap) _ _ _ Hrun)
      as (n & Hn & He).
    apply settled_In in Hn. apply lookup_task_inl in He.
    destruct He as [_ [[_ ->]|(reason & _ & ->)]]; [|eauto].
    do 3 right. left. eauto. }
  apply lookups_complete in Hrun. destruct Hrun as [Hok ->].
  destruct (find _ _) as [missing|] eqn:Hfind.
  { intros H. injection H as <-. apply find_some in Hfind.
    do 3 right. left. exists missing. split; [easy|now right]. }
  cbn [result].
  destruct (run_tasks _ _ tt) as [e'|[]] eqn:Hup; [|discriminate].
  intros H. injection H as <-.
  apply updates_inl in Hup. destruct Hup as (id & Hid & He).
  apply settled_In, idMap_values in Hid. destruct Hid as (n & Hn & ->).
  apply update_task_inl in He.
  destruct He as [_ [[_ ->]|(reason & _ & ->)]]; [|eauto].
  do 4 right. exists n, z, more. split; [easy|]. split; [easy|].
  split; [|reflexivity].
  rewrite find_none_iff in Hfind. specialize (Hfind n Hn).
  rewrite idMap_get in Hfind by easy. now apply negb_false_iff.
Qed.

(** part_000: an error that the code raises itself, one that is not an
    error of the runtime passed on as it is, is about what was configured:
    it names the configured zone, a configured record name, or the id that
    the provider gave for a configured record name in the zone that was
    found. *)
Theorem Part000_errors w cfg c e :
  result (Part000.onTick w cfg c) = inl e ->
  (forall reason, e <> FetchError reason) ->
  e = FailedToFindZone (zone cfg) \/
  e = ZoneDoesntExist (zone cfg) \/
  (exists n, In n (recordNames cfg) /\
             (e = FailedToFindRecord n \/ e = RecordDoesntExist n)) \/
  (exists n z more, In n (recordNames cfg) /\
                    cloudflare w (GetZone (zone cfg)) = Ok (z :: more) /\
                    truthy (record_id w z n) = true /\
                    e = FailedToUpdate (tpl (record_id w z n))).
Proof.
  intros H Hown.
  destruct (Part000_error_cases w cfg c e H) as [(reason & ->)|Hrest];
    [now elim (Hown reason)|exact Hrest].
Qed.

Lemma Part000_errors_witness :
  let w := Sample.w_only_a in
  let cfg := Sample.cfg in
  let e := RecordDoesntExist "b.example.com" in
  result (Part000.onTick w cfg None) = inl e /\
  (forall reason, e <> FetchError reason) /\
  (e = FailedToFindZone (zone cfg) \/
   e = ZoneDoesntExist (zone cfg) \/
   (exists n, In n (recordNames cfg) /\
              (e = FailedToFindRecord n \/ e = RecordDoesntExist n)) \/
   (exists n z more, In n (recordNames cfg) /\
                     cloudflare w (GetZone (zone cfg)) = Ok (z :: more) /\
                     truthy (record_id w z n) = true /\
                     e = FailedToUpdate (tpl (record_id w z n)))).
Proof.
  intros w cfg e. split; [reflexivity|]. split; [discriminate|].
  apply (Part000_errors w cfg None e); [reflexivity|discriminate].
Defined.

(** src/cdu.ts: where the error of a failed pass comes from. *)
Lemma Cdu_error_cases w cfg c e :
  result (Cdu.onTick w cfg c) = inl e ->
  (exists reason, e = FetchError reason) \/
  e = FailedToFindZone (zone cfg) \/
  (exists n, In n (recordNames cfg) /\ e = FailedToFindRecord n) \/
  (exists n ids, In n (recordNames cfg) /\
                 cloudflare w (GetZone (zone cfg)) = Ok ids /\
                 e = FailedToUpdate
                       (tpl (record_id w (tpl (hd_error ids)) n))).
Proof.
  rewrite Cdu_onTick_run.
  destruct (ipify w) as [reason|ip] eqn:Hip.
  { intros H. injection H as <-. eauto. }
  destruct (strict_eq c ip) eqn:Heq; [discriminate|].
  unfold prepend. cbn [result].
  destruct (cloudflare w (GetZone (zone cfg))) as [reason| |ids] eqn:Hz.
  { intros H. injection H as <-. eauto. }
  { intros H. injection H as <-. auto. }
  cbn [result].
  destruct (Cdu.promise_all _ _) as [e'|recordIds] eqn:Hrun; cbn [result].
  { intros H. injection H as <-.
    rewrite (map_ext _ _ (lookup_task_tpl w (hd_error ids))),
      promise_all_run in Hrun.
    destruct (run_tasks _ _ _) as [e''|[]] eqn:Hr; [|discriminate].
    injection Hrun as <-.
    destruct (run_tasks_inl (lookup_task w (Some (tpl (hd_error ids))))
                (fun _ _ _ => tt) _ _ _ Hr) as (n & Hn & He).
    apply settled_In in Hn. apply lookup_task_inl in He.
    destruct He as [_ [[_ ->]|(reason & _ & ->)]]; [|eauto].
    do 2 right. left. eauto. }
  assert (Hids : recordIds
                 = map (record_id w (tpl (hd_error ids))) (recordNames cfg)).
  { now apply Cdu_lookups_inr in Hrun. }
  destruct (run_tasks _ _ tt) as [e'|[]] eqn:Hup; [|discriminate].
  intros H. injection H as <-.
  apply updates_inl in Hup. destruct Hup as (id & Hid & He).
  apply settled_In in Hid. rewrite Hids in Hid. apply in_map_iff in Hid.
  destruct Hid as (n & <- & Hn).
  apply update_task_inl in He.
  destruct He as [_ [[_ ->]|(reason & _ & ->)]]; [|eauto].
  do 3 right. exists n, ids. now repeat split.
Qed.

(** src/cdu.ts: an error that the code raises itself, one that is not an
    error of the runtime passed on as it is, is one of [failed to find
    zone] for the configured zone, [failed to find record] for a
    configured name, and [failed to update DNS record] for what the lookup
    of a configured name gave as an id; the code raises no error for a
    zone or a record that does not exist. *)
Theorem Cdu_errors w cfg c e :
  result (Cdu.onTick w cfg c) = inl e ->
  (forall reason, e <> FetchError reason) ->
  e = FailedToFindZone (zone cfg) \/
  (exists n, In n (recordNames cfg) /\ e = FailedToFindRecord n) \/
  (exists n ids, In n (recordNames cfg) /\
                 cloudflare w (GetZone (zone cfg)) = Ok ids /\
                 e = FailedToUpdate
                       (tpl (record_id w (tpl (hd_error ids)) n))).
Proof.
  intros H Hown.
  destruct (Cdu_error_cases w cfg c e H) as [(reason & ->)|Hrest];
    [now elim (Hown reason)|exact Hrest].
Qed.

Lemma Cdu_errors_witness :
  let w := Sample.w_update_fails in
  let cfg := Sample.cfg in
  let e := FailedToUpdate "RA" in
  result (Cdu.onTick w cfg None) = inl e /\
  (forall reason, e <> FetchError reason) /\
  (e = FailedToFindZone (zone cfg) \/
   (exists n, In n (recordNames cfg) /\ e = FailedToFindRecord n) \/
   (exists n ids, In n (recordNames cfg) /\
                  cloudflare w (GetZone (zone cfg)) = Ok ids /\
                  e = FailedToUpdate
                        (tpl (record_id w (tpl (hd_error ids)) n)))).
Proof.
  intros w cfg e. split; [reflexivity|]. split; [discriminate|].
  apply (Cdu_errors w cfg None e); [reflexivity|discriminate].
Defined.

(** ** An answer that cannot be read *)

(** When the zone request fails in the network, or its answer cannot be
    read (a success status with a body that is not JSON, or JSON without
    [result]), the pass of either file ends with the error of the runtime
    passed on as it is, right after the zone request; the new address is
    in the cache. *)
Theorem zone_runtime_error_stops_pass w cfg c ip reason :
  ipify w = IpText ip -> c <> Some ip ->
  cloudflare w (GetZone (zone cfg)) = NetworkFailure reason ->
  Part000.onTick w cfg c =
  mkRun (inl (FetchError reason)) (Some ip)
        [AskIp; CacheSet ip; Call (GetZone (zone cfg))] /\
  Cdu.onTick w cfg c =
  mkRun (inl (FetchError reason)) (Some ip)
        [AskIp; CacheSet ip; Call (GetZone (zone cfg))].
Proof.
  intros Hip Hc Hz.
  now rewrite Part000_onTick_run, Cdu_onTick_run, Hip,
    (strict_eq_false _ _ Hc), Hz.
Qed.

Lemma zone_runtime_error_stops_pass_witness :
  let w := MoreSamples.w_zone_unreadable in
  let reason := "TypeError: Cannot read properties of undefined" in
  ipify w = IpText Sample.ip /\ None <> Some Sample.ip /\
  cloudflare w (GetZone (zone Sample.cfg)) = NetworkFailure reason /\
  Part000.onTick w Sample.cfg None =
  mkRun (inl (FetchError reason)) (Some Sample.ip)
        [AskIp; CacheSet Sample.ip; Call (GetZone (zone Sample.cfg))] /\
  Cdu.onTick w Sample.cfg None =
  mkRun (inl (FetchError reason)) (Some Sample.ip)
        [AskIp; CacheSet Sample.ip; Call (GetZone (zone Sample.cfg))].
Proof.
  intros w reason.
  split; [reflexivity|]. split; [discriminate|]. split; [reflexivity|].
  apply (zone_runtime_error_stops_pass w Sample.cfg None Sample.ip reason);
    [reflexivity|discriminate|reflexivity].
Defined.
